(** * Three-way merge of committed meta-ranges (pkg/graveler/committed/merge.go)

    A shallow embedding of the merger and of the collaborators it drives
    (iterators, writer, cancellation context), followed by the properties of
    the merge that the specification states. *)

From Stdlib Require Import List Bool Arith Lia NArith String.
From Stdlib Require Import Strings.Byte.
Import ListNotations.
Open Scope string_scope.
Open Scope list_scope.

Set Implicit Arguments.

(* ================================================================== *)
(** * Byte strings: Go's [bytes] package *)
(* ================================================================== *)

Module bytes.

Definition t := list byte.

(** [bytes.Compare]: lexicographic order on raw bytes. *)
Fixpoint Compare (a b : t) : comparison :=
  match a, b with
  | [], [] => Eq
  | [], _ :: _ => Lt
  | _ :: _, [] => Gt
  | x :: a', y :: b' =>
      match N.compare (Byte.to_N x) (Byte.to_N y) with
      | Eq => Compare a' b'
      | c => c
      end
  end.

(** [bytes.Equal]. *)
Definition Equal (a b : t) : bool :=
  match Compare a b with Eq => true | _ => false end.

Definition lt (a b : t) : Prop := Compare a b = Lt.
Definition le (a b : t) : Prop := Compare a b <> Gt.

Definition of_string (s : string) : t := list_byte_of_string s.

End bytes.

(* ================================================================== *)
(** * Data model *)
(* ================================================================== *)

(** [graveler.Key] is a byte string; [committed.ID] is a Go string. *)
Definition KeyT := bytes.t.
Definition IDT := string.

(** [graveler.ValueRecord]: the key with the embedded [*Value]. *)
Record ValueRecord := {
  Key : KeyT;
  Identity : bytes.t;
  Data : bytes.t
}.

(** [committed.Range]: the fields the merger reads. *)
Record Range := {
  ID : IDT;
  MinKey : KeyT;
  MaxKey : KeyT
}.

(** Errors the merger can return. *)
Inductive error :=
| ErrConflictFound                       (* graveler.ErrConflictFound *)
| Canceled                               (* ctx.Err() *)
| IOError (what : string)                (* failure of an iterator or of the writer *)
| Errorf (msg : string) (e : error)      (* fmt.Errorf(msg + ": %w", e) *)
| NilPointer.                            (* dereference of a nil pointer *)

(* ------------------------------------------------------------------ *)
(** ** Iterator *)

(** Modelled from the spec: the [committed.Iterator] interface is declared
    outside merge.go.  A cursor over a two-level sequence: [cur] is the position
    ([None] before the first [Next] and after the end; a range alone at a
    range header; a range and a record inside a range), [pending] the records
    of the current range still ahead, [later] the ranges still ahead.  [fault]
    is the I/O failure (if any) the stream ends with; it becomes observable
    through [Err] once a [Next]/[NextRange] has returned false. *)
Record Iterator := {
  cur : option (Range * option ValueRecord);
  pending : list ValueRecord;
  later : list (Range * list ValueRecord);
  fault : option string;
  err : option string
}.

Definition Value (it : Iterator) : option ValueRecord * option Range :=
  match cur it with
  | None => (None, None)
  | Some (r, v) => (v, Some r)
  end.

Definition NextRange (it : Iterator) : bool * Iterator :=
  match later it with
  | (r, recs) :: l =>
      (true, {| cur := Some (r, None); pending := recs; later := l;
                fault := fault it; err := err it |})
  | [] =>
      (false, {| cur := None; pending := []; later := [];
                 fault := fault it; err := fault it |})
  end.

Definition Next (it : Iterator) : bool * Iterator :=
  match cur it, pending it with
  | Some (r, _), v :: vs =>
      (true, {| cur := Some (r, Some v); pending := vs; later := later it;
                fault := fault it; err := err it |})
  | _, _ => NextRange it
  end.

Definition Err (it : Iterator) : option error := option_map IOError (err it).

(** A fresh iterator over a sequence of ranges. *)
Definition NewIterator (rs : list (Range * list ValueRecord)) (f : option string)
  : Iterator :=
  {| cur := None; pending := []; later := rs; fault := f; err := None |}.

(** Number of positions still ahead of the cursor. *)
Definition ahead (it : Iterator) : nat :=
  List.length (pending it) +
  list_sum (map (fun p => S (List.length (snd p))) (later it)).

(* ------------------------------------------------------------------ *)
(** ** Writer *)

Inductive call :=
| WRange (r : Range)
| WRecord (v : ValueRecord).

(** Modelled from the spec: the [MetaRangeWriter] interface is declared
    outside merge.go.  [written] logs the successful calls, newest first;
    [failAfter] is the number of calls that succeed before the sink reports
    an I/O error ([None]: it never does). *)
Record MetaRangeWriter := {
  written : list call;
  failAfter : option nat
}.

Definition Write (c : call) (w : MetaRangeWriter) : option error * MetaRangeWriter :=
  match failAfter w with
  | Some O => (Some (IOError "write"), w)
  | Some (S n) => (None, {| written := c :: written w; failAfter := Some n |})
  | None => (None, {| written := c :: written w; failAfter := None |})
  end.

Definition WriteRange (r : Range) := Write (WRange r).
Definition WriteRecord (v : ValueRecord) := Write (WRecord v).

(** The calls in the order they were made. *)
Definition output (w : MetaRangeWriter) : list call := rev (written w).

(* ------------------------------------------------------------------ *)
(** ** Cancellation *)

(** Modelled from the spec: a polled token.  The value is the number of polls
    that still find [ctx.Done()] open ([None]: never cancelled); once closed
    it stays closed. *)
Definition Context := option nat.

Definition Done (c : Context) : bool * Context :=
  match c with
  | Some O => (true, Some O)
  | Some (S n) => (false, Some n)
  | None => (false, None)
  end.

(* ================================================================== *)
(** * The merger *)
(* ================================================================== *)

Record merger := {
  ctx : Context;
  writer : MetaRangeWriter;
  base : Iterator;
  source : Iterator;
  dest : Iterator;
  haveSource : bool;
  haveDest : bool
}.

Definition set_ctx (c : Context) (m : merger) : merger :=
  {| ctx := c; writer := writer m; base := base m; source := source m;
     dest := dest m; haveSource := haveSource m; haveDest := haveDest m |}.
Definition set_writer (w : MetaRangeWriter) (m : merger) : merger :=
  {| ctx := ctx m; writer := w; base := base m; source := source m;
     dest := dest m; haveSource := haveSource m; haveDest := haveDest m |}.
Definition set_base (b : Iterator) (m : merger) : merger :=
  {| ctx := ctx m; writer := writer m; base := b; source := source m;
     dest := dest m; haveSource := haveSource m; haveDest := haveDest m |}.
Definition set_source (s : Iterator) (m : merger) : merger :=
  {| ctx := ctx m; writer := writer m; base := base m; source := s;
     dest := dest m; haveSource := haveSource m; haveDest := haveDest m |}.
Definition set_dest (d : Iterator) (m : merger) : merger :=
  {| ctx := ctx m; writer := writer m; base := base m; source := source m;
     dest := d; haveSource := haveSource m; haveDest := haveDest m |}.
Definition set_haveSource (h : bool) (m : merger) : merger :=
  {| ctx := ctx m; writer := writer m; base := base m; source := source m;
     dest := dest m; haveSource := h; haveDest := haveDest m |}.
Definition set_haveDest (h : bool) (m : merger) : merger :=
  {| ctx := ctx m; writer := writer m; base := base m; source := source m;
     dest := dest m; haveSource := haveSource m; haveDest := h |}.

(** ** Methods: state and error passing *)

(** The outcome of a method on [*merger]: a value and the merger it leaves, an
    error and the merger it leaves, or a loop cut short by its bound. *)
Inductive result (A : Type) :=
| Ok (a : A) (m : merger)
| Error (e : error) (m : merger)
| OutOfFuel.

Arguments Ok {A} a m.
Arguments Error {A} e m.
Arguments OutOfFuel {A}.

Definition M (A : Type) := merger -> result A.

Definition ret {A} (a : A) : M A := fun m => Ok a m.
Definition throw {A} (e : error) : M A := fun m => Error e m.
Definition bind {A B} (c : M A) (k : A -> M B) : M B :=
  fun m =>
    match c m with
    | Ok a m' => k a m'
    | Error e m' => Error e m'
    | OutOfFuel => OutOfFuel
    end.

Declare Scope merge_scope.
Delimit Scope merge_scope with merge.
Notation "x <- c ;; k" := (bind c (fun x => k))
  (at level 61, c at next level, right associativity) : merge_scope.
Notation "c ;;; k" := (bind c (fun _ => k))
  (at level 61, right associativity) : merge_scope.
Open Scope merge_scope.

(** [if err != nil { return fmt.Errorf(msg, err) }] around a call. *)
Definition wrap {A} (msg : string) (c : M A) : M A :=
  fun m =>
    match c m with
    | Error e m' => Error (Errorf msg e) m'
    | r => r
    end.

(** [return v, it.Err()] *)
Definition retErr {A} (a : A) (e : option error) : M A :=
  match e with
  | Some x => throw x
  | None => ret a
  end.

(** Field access through a pointer that may be nil. *)
Definition deref {A} (p : option A) : M A :=
  match p with
  | Some a => ret a
  | None => throw NilPointer
  end.

Inductive side := Source | Dest.

Definition iter (s : side) (m : merger) : Iterator :=
  match s with Source => source m | Dest => dest m end.
Definition set_iter (s : side) (it : Iterator) (m : merger) : merger :=
  match s with Source => set_source it m | Dest => set_dest it m end.

Definition baseValue : M (option ValueRecord * option Range) :=
  fun m => Ok (Value (base m)) m.
Definition baseNext : M bool :=
  fun m => Ok (fst (Next (base m))) (set_base (snd (Next (base m))) m).
Definition baseNextRange : M bool :=
  fun m => Ok (fst (NextRange (base m))) (set_base (snd (NextRange (base m))) m).
Definition baseErr : M (option error) :=
  fun m => Ok (Err (base m)) m.

Definition iterValue (s : side) : M (option ValueRecord * option Range) :=
  fun m => Ok (Value (iter s m)) m.
Definition iterNext (s : side) : M bool :=
  fun m => Ok (fst (Next (iter s m))) (set_iter s (snd (Next (iter s m))) m).
Definition iterNextRange (s : side) : M bool :=
  fun m => Ok (fst (NextRange (iter s m))) (set_iter s (snd (NextRange (iter s m))) m).
Definition iterErr (s : side) : M (option error) :=
  fun m => Ok (Err (iter s m)) m.

(** [m.haveSource = m.source.Next()] and its three siblings. *)
Definition sourceNext : M unit :=
  fun m => Ok tt (set_haveSource (fst (Next (source m)))
                    (set_source (snd (Next (source m))) m)).
Definition sourceNextRange : M unit :=
  fun m => Ok tt (set_haveSource (fst (NextRange (source m)))
                    (set_source (snd (NextRange (source m))) m)).
Definition destNext : M unit :=
  fun m => Ok tt (set_haveDest (fst (Next (dest m)))
                    (set_dest (snd (Next (dest m))) m)).
Definition destNextRange : M unit :=
  fun m => Ok tt (set_haveDest (fst (NextRange (dest m)))
                    (set_dest (snd (NextRange (dest m))) m)).

(** [select { case <-m.ctx.Done(): return m.ctx.Err(); default: }] *)
Definition checkDone : M unit :=
  fun m =>
    if fst (Done (ctx m)) then Error Canceled (set_ctx (snd (Done (ctx m))) m)
    else Ok tt (set_ctx (snd (Done (ctx m))) m).

Definition is_ge (c : comparison) : bool :=
  match c with Lt => false | _ => true end.
Definition is_le (c : comparison) : bool :=
  match c with Gt => false | _ => true end.
Definition is_lt (c : comparison) : bool :=
  match c with Lt => true | _ => false end.
Definition is_gt (c : comparison) : bool :=
  match c with Gt => true | _ => false end.

(** [p != nil && f p] *)
Definition nonnil_and {A} (p : option A) (f : A -> bool) : bool :=
  match p with Some a => f a | None => false end.
(** [p == nil || f p] *)
Definition nil_or {A} (p : option A) (f : A -> bool) : bool :=
  match p with Some a => f a | None => true end.

(** ** moveBaseToGERange *)

Fixpoint moveBaseToGERange_loop (fuel : nat) (key : KeyT) : M (option Range) :=
  vr <- baseValue ;;
  let baseRange := snd vr in
  if nonnil_and baseRange (fun r => is_ge (bytes.Compare (MaxKey r) key))
  then ret baseRange
  else
    ok <- baseNextRange ;;
    if negb ok then (e <- baseErr ;; retErr None e)
    else match fuel with
         | O => fun _ => OutOfFuel
         | S n => moveBaseToGERange_loop n key
         end.

Definition moveBaseToGERange (key : KeyT) : M (option Range) :=
  fun m => moveBaseToGERange_loop (List.length (later (base m))) key m.

(** ** moveBaseToGEKey *)

Fixpoint moveBaseToGEKey_loop (fuel : nat) (key : KeyT) (baseRange : option Range)
  : M (option ValueRecord) :=
  vr <- baseValue ;;
  let baseValue := fst vr in
  let innerRange := snd vr in
  if nonnil_and baseValue (fun v => is_le (bytes.Compare key (Key v)))
  then ret baseValue
  else
    ok <- baseNext ;;
    if negb ok then (e <- baseErr ;; retErr None e)
    else
      ir <- deref innerRange ;;
      br <- deref baseRange ;;
      if negb (String.eqb (ID ir) (ID br)) then (e <- baseErr ;; retErr None e)
      else match fuel with
           | O => fun _ => OutOfFuel
           | S n => moveBaseToGEKey_loop n key baseRange
           end.

Definition moveBaseToGEKey (key : KeyT) : M (option ValueRecord) :=
  vr <- baseValue ;;
  let baseValue := fst vr in
  if nonnil_and baseValue (fun v => is_le (bytes.Compare key (Key v)))
  then ret baseValue
  else
    baseRange <- moveBaseToGERange key ;;
    fun m => moveBaseToGEKey_loop (ahead (base m)) key baseRange m.

(** ** writeRange, writeRecord (tracing has no effect on the merge) *)

Definition writeRange (r : Range) : M unit :=
  fun m =>
    match WriteRange r (writer m) with
    | (Some e, w) => Error (Errorf ("copy range " ++ ID r)%string e) (set_writer w m)
    | (None, w) => Ok tt (set_writer w m)
    end.

Definition writeRecord (v : ValueRecord) : M unit :=
  fun m =>
    match WriteRecord v (writer m) with
    | (Some e, w) => Error (Errorf "write record" e) (set_writer w m)
    | (None, w) => Ok tt (set_writer w m)
    end.

(** ** handleAll: only one of source and dest remains *)

Fixpoint handleAll_loop (fuel : nat) (s : side) : M unit :=
  checkDone ;;;
  vr <- iterValue s ;;
  let continue :=
    match fuel with
    | O => fun _ => OutOfFuel
    | S n => handleAll_loop n s
    end in
  match fst vr with
  | None =>
      iterRange <- deref (snd vr) ;;
      baseRange <- wrap "base range GE" (moveBaseToGERange (MinKey iterRange)) ;;
      (if nil_or baseRange (fun b => negb (String.eqb (ID b) (ID iterRange)))
       then writeRange iterRange
       else ret tt) ;;;
      ok <- iterNextRange s ;;
      if negb ok then (e <- iterErr s ;; retErr tt e) else continue
  | Some iterValue =>
      baseValue <- wrap "base value GE" (moveBaseToGEKey (Key iterValue)) ;;
      (if nil_or baseValue
            (fun b => negb (bytes.Equal (Identity b) (Identity iterValue)))
       then writeRecord iterValue
       else ret tt) ;;;
      ok <- iterNext s ;;
      if negb ok then (e <- iterErr s ;; retErr tt e) else continue
  end.

Definition handleAll (s : side) : M unit :=
  fun m => handleAll_loop (ahead (iter s m)) s m.

(** ** handleBothRanges: source and dest are both at a range header *)

Definition handleBothRanges (sourceRange destRange : Range) : M unit :=
  if String.eqb (ID sourceRange) (ID destRange) then
    (* range hasn't changed or both added the same range *)
    writeRange sourceRange ;;;
    sourceNextRange ;;;
    destNextRange
  else if is_lt (bytes.Compare (MaxKey sourceRange) (MinKey destRange)) then
    (* source before dest *)
    baseRange <- wrap "base range GE" (moveBaseToGERange (MinKey sourceRange)) ;;
    if nonnil_and baseRange (fun b => String.eqb (ID sourceRange) (ID b)) then
      (* dest deleted this range *)
      sourceNextRange
    else if nil_or baseRange (fun b => String.eqb (ID destRange) (ID b)) then
      (* source added this range *)
      (writeRange sourceRange ;;;
       sourceNextRange)
    else
      (* both changed this range *)
      (sourceNext ;;;
       destNext)
  else if is_lt (bytes.Compare (MaxKey destRange) (MinKey sourceRange)) then
    (* dest before source *)
    baseRange <- wrap "base range GE" (moveBaseToGERange (MinKey destRange)) ;;
    if nonnil_and baseRange (fun b => String.eqb (ID sourceRange) (ID b)) then
      (* dest added this range *)
      (writeRange destRange ;;;
       destNextRange)
    else if nil_or baseRange (fun b => String.eqb (ID destRange) (ID b)) then
      (* source deleted this range *)
      destNextRange
    else
      (* both changed this range *)
      (sourceNext ;;;
       destNext)
  else if bytes.Equal (MinKey sourceRange) (MinKey destRange)
          && bytes.Equal (MaxKey sourceRange) (MaxKey destRange) then
    (* same bounds *)
    baseRange <- moveBaseToGERange (MinKey sourceRange) ;;
    if nonnil_and baseRange
         (fun b => String.eqb (ID sourceRange) (ID b)
                   || String.eqb (ID destRange) (ID b)) then
      (if nonnil_and baseRange (fun b => String.eqb (ID sourceRange) (ID b))
       then writeRange destRange        (* dest added changes *)
       else writeRange sourceRange) ;;; (* source added changes *)
      sourceNextRange ;;;
      destNextRange
    else
      (* enter both ranges *)
      (sourceNext ;;;
       destNext)
  else
    (* ranges overlapping *)
    sourceNext ;;;
    destNext.

(** ** handleBothKeys: source and dest are both inside a range *)

Definition handleBothKeys (sourceValue destValue : ValueRecord) : M unit :=
  match bytes.Compare (Key sourceValue) (Key destValue) with
  | Lt => (* source before dest *)
      baseValue <- moveBaseToGEKey (Key sourceValue) ;;
      if nonnil_and baseValue
           (fun b => bytes.Equal (Identity sourceValue) (Identity b)) then
        (* dest deleted this record *)
        sourceNext
      else if nonnil_and baseValue
                (fun b => bytes.Equal (Key sourceValue) (Key b)) then
        (* deleted by dest and changed by source *)
        throw ErrConflictFound
      else
        (* source added this record *)
        (wrap "write source record" (writeRecord sourceValue) ;;;
         sourceNext)
  | Gt => (* dest before source *)
      baseValue <- moveBaseToGEKey (Key destValue) ;;
      if nonnil_and baseValue
           (fun b => bytes.Equal (Identity destValue) (Identity b)) then
        (* source deleted this record *)
        destNext
      else if nonnil_and baseValue
                (fun b => bytes.Equal (Key destValue) (Key b)) then
        (* deleted by source added by dest *)
        throw ErrConflictFound
      else
        (* dest added this record *)
        (wrap "write dest record" (writeRecord destValue) ;;;
         destNext)
  | Eq => (* identical keys *)
      baseValue <- moveBaseToGEKey (Key destValue) ;;
      if negb (bytes.Equal (Identity sourceValue) (Identity destValue)) then
        match baseValue with
        | Some b =>
            (if bytes.Equal (Identity sourceValue) (Identity b) then
               wrap "write record" (writeRecord destValue)
             else if bytes.Equal (Identity destValue) (Identity b) then
               wrap "write record" (writeRecord sourceValue)
             else (* both changed the same key *)
               throw ErrConflictFound) ;;;
            sourceNext ;;;
            destNext
        | None => throw ErrConflictFound
        end
      else
        (* record hasn't changed or both added the same record *)
        (wrap "write record" (writeRecord sourceValue) ;;;
         sourceNext ;;;
         destNext)
  end.

(** ** handleDestRangeSourceKey: source inside a range, dest at a header *)

Definition handleDestRangeSourceKey (destRange : Range) (sourceValue : ValueRecord)
  : M unit :=
  if is_gt (bytes.Compare (MinKey destRange) (Key sourceValue)) then
    (* source before dest range *)
    baseValue <- wrap "base key GE" (moveBaseToGEKey (Key sourceValue)) ;;
    if nonnil_and baseValue
         (fun b => bytes.Equal (Identity sourceValue) (Identity b)) then
      (* dest deleted this record *)
      sourceNext
    else if nonnil_and baseValue
              (fun b => bytes.Equal (Key sourceValue) (Key b)) then
      (* deleted by dest and changed by source *)
      throw ErrConflictFound
    else
      (* source added this record *)
      (wrap "write source record" (writeRecord sourceValue) ;;;
       sourceNext)
  else
    skip <-
      (if is_lt (bytes.Compare (MaxKey destRange) (Key sourceValue)) then
         (* dest range before source *)
         baseRange <- wrap "base range GE" (moveBaseToGERange (MinKey destRange)) ;;
         ret (nonnil_and baseRange (fun b => String.eqb (ID destRange) (ID b)))
       else ret false) ;;
    if skip then
      (* source deleted this range *)
      destNextRange
    else
      (* dest is at start of range which we need to scan, enter it *)
      destNext.

(** ** handleSourceRangeDestKey: dest inside a range, source at a header *)

Definition handleSourceRangeDestKey (sourceRange : Range) (destValue : ValueRecord)
  : M unit :=
  if is_gt (bytes.Compare (MinKey sourceRange) (Key destValue)) then
    (* dest before source range *)
    baseValue <- wrap "base key GE" (moveBaseToGEKey (Key destValue)) ;;
    if nonnil_and baseValue
         (fun b => bytes.Equal (Identity destValue) (Identity b)) then
      (* source deleted this record *)
      sourceNext
    else if nonnil_and baseValue
              (fun b => bytes.Equal (Key destValue) (Key b)) then
      (* deleted by source and changed by dest *)
      throw ErrConflictFound
    else
      (* dest added this record *)
      (wrap "write dest record" (writeRecord destValue) ;;;
       destNext)
  else
    skip <-
      (if is_lt (bytes.Compare (MaxKey sourceRange) (Key destValue)) then
         (* source range before dest *)
         baseRange <- wrap "base range GE" (moveBaseToGERange (MinKey sourceRange)) ;;
         ret (nonnil_and baseRange (fun b => String.eqb (ID sourceRange) (ID b)))
       else ret false) ;;
    if skip then
      (* dest deleted this range *)
      sourceNextRange
    else
      (* source is at start of range which we need to scan, enter it *)
      sourceNext.

(** ** merge *)

(** [m.haveSource, m.haveDest, _ = m.source.Next(), m.dest.Next(), m.base.Next()] *)
Definition prime : M unit :=
  sourceNext ;;;
  destNext ;;;
  _ <- baseNext ;;
  ret tt.

(** The four-way dispatch on the two cursors. *)
Definition dispatch : M unit :=
  s <- iterValue Source ;;
  d <- iterValue Dest ;;
  match fst s, fst d with
  | None, None =>
      sourceRange <- deref (snd s) ;;
      destRange <- deref (snd d) ;;
      handleBothRanges sourceRange destRange
  | Some sourceValue, None =>
      destRange <- deref (snd d) ;;
      handleDestRangeSourceKey destRange sourceValue
  | None, Some destValue =>
      sourceRange <- deref (snd s) ;;
      handleSourceRangeDestKey sourceRange destValue
  | Some sourceValue, Some destValue =>
      handleBothKeys sourceValue destValue
  end.

(** One pass through the body of the main loop. *)
Definition iteration : M unit :=
  checkDone ;;;
  dispatch ;;;
  (e <- iterErr Source ;; retErr tt e) ;;;
  (e <- iterErr Dest ;; retErr tt e) ;;;
  (e <- baseErr ;; retErr tt e).

Fixpoint merge_loop (fuel : nat) : M unit :=
  fun m =>
    if haveSource m && haveDest m then
      match fuel with
      | O => OutOfFuel
      | S n => (iteration ;;; merge_loop n) m
      end
    else Ok tt m.

Definition merge : M unit :=
  prime ;;;
  (fun m => merge_loop (S (ahead (source m) + ahead (dest m))) m) ;;;
  (fun m => if haveSource m then handleAll Source m else Ok tt m) ;;;
  (fun m => if haveDest m then handleAll Dest m else Ok tt m).

Definition Merge (c : Context) (w : MetaRangeWriter)
           (base source destination : Iterator) : result unit :=
  merge {| ctx := c; writer := w; base := base; source := source;
           dest := destination; haveSource := false; haveDest := false |}.

(** ** Concrete inputs *)

Definition rec (k i : string) : ValueRecord :=
  {| Key := bytes.of_string k; Identity := bytes.of_string i; Data := [] |}.

Definition rng (id lo hi : string) : Range :=
  {| ID := id; MinKey := bytes.of_string lo; MaxKey := bytes.of_string hi |}.

(** A writer that never fails, a context that is never cancelled. *)
Definition newWriter : MetaRangeWriter := {| written := []; failAfter := None |}.
Definition background : Context := None.

(** A merge of three in-memory trees, and what it leaves. *)
Definition run (b s d : list (Range * list ValueRecord)) : result unit :=
  Merge background newWriter (NewIterator b None) (NewIterator s None)
        (NewIterator d None).

Definition outcome (r : result unit) : option (option error * list call) :=
  match r with
  | Ok _ m => Some (None, output (writer m))
  | Error e m => Some (Some e, output (writer m))
  | OutOfFuel => None
  end.

(* ================================================================== *)
(** * Well-formed inputs and what the writer received *)
(* ================================================================== *)

(** The key a cursor position stands at: the record's key inside a range, the
    range's [MinKey] at its header. *)
Definition pkey (p : Range * option ValueRecord) : KeyT :=
  match snd p with
  | Some v => Key v
  | None => MinKey (fst p)
  end.

(** The records [vs] ahead in a range: increasing, above [lo] (strictly when
    [lo] is itself a record's key), and not above the range's [hi]. *)
Fixpoint recs_ok (lo : KeyT) (strict : bool) (vs : list ValueRecord) (hi : KeyT)
  : Prop :=
  match vs with
  | [] => True
  | v :: vs' =>
      (if strict then bytes.lt lo (Key v) else bytes.le lo (Key v))
      /\ bytes.le (Key v) hi
      /\ recs_ok (Key v) true vs' hi
  end.

(** The next range starts after key [k]. *)
Definition next_after (k : KeyT) (l : list (Range * list ValueRecord)) : Prop :=
  match l with
  | [] => True
  | p :: _ => bytes.lt k (MinKey (fst p))
  end.

(** Invariants 1 and 2 of the data model, on the ranges ahead: bounds in
    order, records sorted within the bounds, successive ranges apart. *)
Fixpoint ranges_ok (l : list (Range * list ValueRecord)) : Prop :=
  match l with
  | [] => True
  | p :: l' =>
      bytes.le (MinKey (fst p)) (MaxKey (fst p))
      /\ recs_ok (MinKey (fst p)) false (snd p) (MaxKey (fst p))
      /\ next_after (MaxKey (fst p)) l'
      /\ ranges_ok l'
  end.

(** The same, for an iterator at any point of its traversal. *)
Definition wf_iter (it : Iterator) : Prop :=
  match cur it with
  | None => ranges_ok (later it)
  | Some (r, None) =>
      bytes.le (MinKey r) (MaxKey r)
      /\ recs_ok (MinKey r) false (pending it) (MaxKey r)
      /\ next_after (MaxKey r) (later it)
      /\ ranges_ok (later it)
  | Some (r, Some v) =>
      bytes.le (Key v) (MaxKey r)
      /\ recs_ok (Key v) true (pending it) (MaxKey r)
      /\ next_after (MaxKey r) (later it)
      /\ ranges_ok (later it)
  end.

(** The ranges an iterator is at or has ahead. *)
Definition ranges_of (it : Iterator) : list Range :=
  match cur it with
  | Some (r, _) => r :: map fst (later it)
  | None => map fst (later it)
  end.

(** Consequence of invariant 3 (content addressing) the merger relies on:
    ranges of the two sides with one id end at the same key. *)
Definition same_id_same_end (rs rd : list Range) : Prop :=
  forall r1 r2, In r1 rs -> In r2 rd -> ID r1 = ID r2 -> MaxKey r1 = MaxKey r2.

(** The span of keys a writer call covers. *)
Definition lo (c : call) : KeyT :=
  match c with WRange r => MinKey r | WRecord v => Key v end.
Definition hi (c : call) : KeyT :=
  match c with WRange r => MaxKey r | WRecord v => Key v end.

(** Everything in the log (newest first) lies strictly below key [k]. *)
Definition below (k : KeyT) (log : list call) : Prop :=
  match log with
  | [] => True
  | c :: _ => bytes.lt (hi c) k
  end.

(** The log (newest first) is a sequence of spans, each after the one before. *)
Fixpoint ordered (log : list call) : Prop :=
  match log with
  | [] => True
  | c :: l => bytes.le (lo c) (hi c) /\ below (lo c) l /\ ordered l
  end.

(** The keys a sequence of writer calls emits, [content] giving the records
    of a range written whole. *)
Definition emitted (content : Range -> list ValueRecord) (calls : list call)
  : list KeyT :=
  flat_map (fun c => match c with
                     | WRange r => map Key (content r)
                     | WRecord v => [Key v]
                     end) calls.

(** Strictly increasing in byte-wise lexicographic order. *)
Fixpoint increasing (ks : list KeyT) : Prop :=
  match ks with
  | [] => True
  | k :: ks' => Forall (bytes.lt k) ks' /\ increasing ks'
  end.

(** A side of the merge, as the loop invariant sees it: the iterator is well
    formed and, while it has a position, everything written lies below it. *)
Definition side_ok (log : list call) (have : bool) (it : Iterator) : Prop :=
  wf_iter it
  /\ (have = true -> exists p, cur it = Some p /\ below (pkey p) log).

(** The moves a handler makes on one side. *)
Inductive move := Stay | Descend | Skip.

Definition moved (a : move) (have : bool) (it : Iterator) : bool * Iterator :=
  match a with
  | Stay => (have, it)
  | Descend => Next it
  | Skip => NextRange it
  end.

(** What a call [c] just written requires of a side that makes move [a]. *)
Definition clears (c : call) (a : move) (it : Iterator) : Prop :=
  match cur it with
  | None => False
  | Some p =>
      match a, snd p with
      | Stay, _ => bytes.lt (hi c) (pkey p)
      | Descend, Some v => bytes.le (hi c) (Key v)
      | Descend, None => bytes.lt (hi c) (MinKey (fst p))
      | Skip, _ => bytes.le (hi c) (MaxKey (fst p))
      end
  end.

Section Invariant.

(** [G] holds of every range the two sides carry. *)
Variable G : Range -> Prop.

Definition log_ok (log : list call) : Prop :=
  ordered log /\ forall r, In (WRange r) log -> G r.

Definition Inv (m : merger) : Prop :=
  log_ok (written (writer m))
  /\ side_ok (written (writer m)) (haveSource m) (source m)
  /\ side_ok (written (writer m)) (haveDest m) (dest m)
  /\ same_id_same_end (ranges_of (source m)) (ranges_of (dest m))
  /\ (forall r, In r (ranges_of (source m)) -> G r)
  /\ (forall r, In r (ranges_of (dest m)) -> G r).

End Invariant.

(* ------------------------------------------------------------------ *)
(** ** The base lookups as the specification words them *)

(** [seek_ge_range k]: the first range, from the cursor on, whose [MaxKey] is at
    least [k], with the records of it that the cursor has not passed. *)
Definition seek_ge_range (k : KeyT) (it : Iterator)
  : option (Range * list ValueRecord) :=
  let reaches (r : Range) := is_ge (bytes.Compare (MaxKey r) k) in
  let ahead_ranges := find (fun p => reaches (fst p)) (later it) in
  match cur it with
  | Some (r, ov) =>
      if reaches r
      then Some (r, match ov with Some v => v :: pending it | None => pending it end)
      else ahead_ranges
  | None => ahead_ranges
  end.

(** [seek_ge_key k]: the first record with key at least [k] that lies in that
    same range, absent if that range has none. *)
Definition seek_ge_key (k : KeyT) (it : Iterator) : option ValueRecord :=
  match seek_ge_range k it with
  | Some (_, vs) => find (fun v => is_le (bytes.Compare k (Key v))) vs
  | None => None
  end.

(** A record of the current range does not lie above the range's [MaxKey]. *)
Definition cursor_in_range (it : Iterator) : Prop :=
  match cur it with
  | Some (r, Some v) => bytes.le (Key v) (MaxKey r)
  | _ => True
  end.

(* ------------------------------------------------------------------ *)
(** ** Reasoning about methods *)

(** What a method's outcome satisfies: [P] of a value and merger it returns,
    [Q] of an error and the merger it leaves; a loop cut short satisfies
    nothing. *)
Definition post {A} (r : result A) (P : A -> merger -> Prop)
           (Q : error -> merger -> Prop) : Prop :=
  match r with
  | Ok a m => P a m
  | Error e m => Q e m
  | OutOfFuel => False
  end.

(** The merger after a handler wrote to [w], moved the base to [b], found the
    context at [c], and made move [aS] on source and [aD] on dest. *)
Definition after (m : merger) (c : Context) (w : MetaRangeWriter) (b : Iterator)
           (aS aD : move) : merger :=
  {| ctx := c; writer := w; base := b;
     source := snd (moved aS (haveSource m) (source m));
     dest := snd (moved aD (haveDest m) (dest m));
     haveSource := fst (moved aS (haveSource m) (source m));
     haveDest := fst (moved aD (haveDest m) (dest m)) |}.

(** Nothing but the base cursor and the context changed. *)
Definition quiet (m m' : merger) : Prop :=
  writer m' = writer m /\ source m' = source m /\ dest m' = dest m
  /\ haveSource m' = haveSource m /\ haveDest m' = haveDest m.

(** A step of the main loop ends the loop or leaves fewer positions ahead. *)
Definition progress (m m' : merger) : Prop :=
  haveSource m' && haveDest m' = false
  \/ ahead (source m') + ahead (dest m') < ahead (source m) + ahead (dest m).

(** Errors that come from a collaborator, not from the merge logic. *)
Definition collaborator_error (e : error) : Prop :=
  match e with
  | ErrConflictFound | Canceled => False
  | _ => True
  end.

(** A base lookup returned, having moved only the base cursor. *)
Definition base_moved (m : merger) {A} (_ : A) (m' : merger) : Prop :=
  exists b, m' = set_base b m.

(** A base lookup failed, having moved only the base cursor. *)
Definition base_failed (m : merger) (e : error) (m' : merger) : Prop :=
  (exists b, m' = set_base b m) /\ collaborator_error e.

(** What a handler of the main loop leaves when it returns: the invariant, and
    progress. *)
Definition handled (G : Range -> Prop) (m : merger) (_ : unit) (m' : merger)
  : Prop :=
  Inv G m' /\ progress m m'.

(** What a handler leaves when it fails: nothing written, no side moved. *)
Definition undone (m : merger) (_ : error) (m' : merger) : Prop :=
  quiet m m'.

(** The invariant of the tail phase on side [s]. *)
Definition Drain (G : Range -> Prop) (s : side) (m : merger) : Prop :=
  log_ok G (written (writer m))
  /\ side_ok (written (writer m)) true (iter s m)
  /\ (forall r, In r (ranges_of (iter s m)) -> G r).

(** What the tail phase leaves when it returns. *)
Definition drained (G : Range -> Prop) (m : merger) (_ : unit) (m' : merger)
  : Prop :=
  log_ok G (written (writer m'))
  /\ haveSource m' = haveSource m /\ haveDest m' = haveDest m.

(** What any phase leaves when it fails. *)
Definition failed (G : Range -> Prop) (_ : error) (m' : merger) : Prop :=
  log_ok G (written (writer m')).

(** A range whose records, as [content] gives them, are sorted within its
    bounds. *)
Definition range_sound (content : Range -> list ValueRecord) (r : Range) : Prop :=
  bytes.le (MinKey r) (MaxKey r)
  /\ recs_ok (MinKey r) false (content r) (MaxKey r).

(** The outcome of a call that returned error [e] (nil when [None]) and left
    merger [m]. *)
Definition returned (e : option error) (m : merger) : result unit :=
  match e with
  | None => Ok tt m
  | Some x => Error x m
  end.

(** An iterator at the header of range [r], with records [vs] and the ranges
    [l] after it; an iterator past its end. *)
Definition atHeader (r : Range) (vs : list ValueRecord)
           (l : list (Range * list ValueRecord)) : Iterator :=
  {| cur := Some (r, None); pending := vs; later := l;
     fault := None; err := None |}.

Definition atEnd : Iterator :=
  {| cur := None; pending := []; later := []; fault := None; err := None |}.

(** The merger in the middle of merging a tree with itself: source and dest
    at the same range header, the writer never failing, no cancellation. *)
Definition mergingSame (log : list call) (b src dst : Iterator) (have : bool)
  : merger :=
  {| ctx := background;
     writer := {| written := log; failAfter := None |};
     base := b; source := src; dest := dst;
     haveSource := have; haveDest := have |}.

(** The range after the current one has another id. *)
Definition next_differs (r : Range) (l : list (Range * list ValueRecord)) : Prop :=
  match l with
  | [] => True
  | p :: _ => ID (fst p) <> ID r
  end.

(** The records of the current range from the cursor on. *)
Definition from_cursor (ov : option ValueRecord) (vs : list ValueRecord)
  : list ValueRecord :=
  match ov with
  | Some v => v :: vs
  | None => vs
  end.

(** The base stands in range [r] with records [vs] from the cursor on, and is
    followed by a range of another id. *)
Definition positioned (b : Iterator) (r : Range) (vs : list ValueRecord) : Prop :=
  exists ov, cur b = Some (r, ov)
             /\ vs = from_cursor ov (pending b)
             /\ next_differs r (later b).


(** The merger a call left. *)
Definition mergerOf {A} (r : result A) : option merger :=
  match r with
  | Ok _ m => Some m
  | Error _ m => Some m
  | OutOfFuel => None
  end.

(** The merger over three in-memory trees after priming and [n] passes of the
    main loop. *)
Fixpoint iterations (n : nat) : M unit :=
  match n with
  | O => ret tt
  | S n' => iteration ;;; iterations n'
  end.

Definition reached (n : nat) (b s d : list (Range * list ValueRecord))
  : option merger :=
  mergerOf ((prime ;;; iterations n)
              {| ctx := background; writer := newWriter;
                 base := NewIterator b None; source := NewIterator s None;
                 dest := NewIterator d None;
                 haveSource := false; haveDest := false |}).




(** Source at the header of range S2, dest inside its range on a record the
    base holds unchanged: the state the merge of these trees reaches after
    two passes. *)
Definition orphanBase : list (Range * list ValueRecord) :=
  [(rng "B" "a" "b", [rec "a" "1"; rec "b" "2"])].
Definition orphanSource : list (Range * list ValueRecord) :=
  [(rng "S1" "a" "a", [rec "a" "1"]); (rng "S2" "c" "c", [rec "c" "3"])].
Definition orphanDest : list (Range * list ValueRecord) :=
  [(rng "D" "a" "d", [rec "a" "1"; rec "b" "2"; rec "d" "4"])].

(** The iterator [it] once it has run past its end. *)
Definition endOf (it : Iterator) : Iterator :=
  {| cur := None; pending := []; later := [];
     fault := fault it; err := fault it |}.

(** The other side of the merge. *)
Definition other (s : side) : side :=
  match s with Source => Dest | Dest => Source end.

(** The log [log'] is [log] with at most one call added. *)
Definition one_more (log log' : list call) : Prop :=
  log' = log \/ exists k, log' = k :: log.

(** The log [log'] is [log] with calls added. *)
Definition extends (log log' : list call) : Prop :=
  exists l, log' = l ++ log.

(** The scan for a key can read the ranges it compares: the base stands in a
    range and the sought range is known, or the base is past its end. *)
Definition scannable (b : Iterator) (baseRange : option Range) : Prop :=
  match cur b, baseRange with
  | Some _, Some _ => True
  | Some _, None => False
  | None, _ => later b = []
  end.

(** A lookup moved nothing but the base cursor, and that not backwards. *)
Definition only_base_forward (m m' : merger) : Prop :=
  (exists b, m' = set_base b m) /\ ahead (base m') <= ahead (base m).

(** A base in its first range, for the examples of the lookups. *)
Definition twoRangeBase : merger :=
  {| ctx := background; writer := newWriter;
     base := {| cur := Some (rng "B1" "a" "c", None);
                pending := [rec "a" "1"; rec "c" "2"];
                later := [(rng "B2" "e" "f", [rec "e" "5"])];
                fault := None; err := None |};
     source := atEnd; dest := atEnd;
     haveSource := false; haveDest := false |}.

(** What a handler of the main loop leaves when it returns, whatever the
    merger it started from: some side has moved, and at most one call was
    written. *)
Definition stepped (m : merger) (_ : unit) (m' : merger) : Prop :=
  exists c w b aS aD,
    m' = after m c w b aS aD
    /\ (aS <> Stay \/ aD <> Stay)
    /\ one_more (written (writer m)) (written w).

(** A side that has no position left is past its end. *)
Definition spent (have : bool) (it : Iterator) : Prop :=
  have = false -> it = endOf it.

(** What the tail phase on side [s] leaves when it fails: the other side and
    the flags as they were, the log with calls added. *)
Definition tail_failed (s : side) (m : merger) (_ : error) (m' : merger) : Prop :=
  iter (other s) m' = iter (other s) m
  /\ haveSource m' = haveSource m /\ haveDest m' = haveDest m
  /\ extends (written (writer m)) (written (writer m')).

(** What it leaves when it returns: moreover side [s] is past its end, and
    its stream ended without an I/O error. *)
Definition tail_done (s : side) (m : merger) (_ : unit) (m' : merger) : Prop :=
  iter s m' = endOf (iter s m)
  /\ fault (iter s m) = None
  /\ tail_failed s m Canceled m'.

(** An iterator with nothing at or ahead of its cursor. *)
Definition exhausted (it : Iterator) : Prop :=
  cur it = None /\ pending it = [] /\ later it = [].

(** The merger once the three iterators are primed. *)
Definition primed (m : merger) : merger :=
  {| ctx := ctx m; writer := writer m;
     base := snd (Next (base m));
     source := snd (Next (source m));
     dest := snd (Next (dest m));
     haveSource := fst (Next (source m));
     haveDest := fst (Next (dest m)) |}.

(** The merger in its tail phase, not cancelled: base at [b], source at
    [src], dest at [dst]. *)
Definition inTail (w : MetaRangeWriter) (b src dst : Iterator) (hs hd : bool)
  : merger :=
  {| ctx := background; writer := w; base := b; source := src; dest := dst;
     haveSource := hs; haveDest := hd |}.

(** A writer that never fails, holding [log]. *)
Definition logged (log : list call) : MetaRangeWriter :=
  {| written := log; failAfter := None |}.

(** The calls that write the ranges of [l] whole, newest first. *)
Definition wholeRanges (l : list (Range * list ValueRecord)) : list call :=
  rev (map (fun p => WRange (fst p)) l).

(** The base stands at the header of range [r] of the tree [(r, vs) :: l], or
    at the header of a range that ends before [r] begins and is followed by
    that tree. *)
Definition alignedOrBehind (b : Iterator) (r : Range) (vs : list ValueRecord)
           (l : list (Range * list ValueRecord)) : Prop :=
  b = atHeader r vs l
  \/ exists r0 vs0, b = atHeader r0 vs0 ((r, vs) :: l)
                    /\ bytes.lt (MaxKey r0) (MinKey r).




(** An I/O error of an iterator or of the writer, however wrapped. *)
Fixpoint io_rooted (e : error) : Prop :=
  match e with
  | IOError _ => True
  | Errorf _ e' => io_rooted e'
  | _ => False
  end.

(** The errors the merge reports: the conflict and the cancellation as they
    are, never wrapped, and the I/O errors of its collaborators. *)
Definition reported (e : error) : Prop :=
  e = ErrConflictFound \/ e = Canceled \/ io_rooted e.

(** A lookup moved only the base. *)
Definition moved_base (m : merger) {A} (_ : A) (m' : merger) : Prop :=
  exists b, m' = set_base b m.

(** A lookup failed with the base's I/O error, having moved only the base. *)
Definition base_io_failed (m : merger) (e : error) (m' : merger) : Prop :=
  (exists b, m' = set_base b m) /\ exists s, e = IOError s.

(** The method [wr] writes call [k], or fails and leaves the merger as it
    is. *)
Definition writes (k : call) (wr : M unit) (m : merger) : Prop :=
  (exists w, wr m = Ok tt (set_writer w m)
             /\ written w = k :: written (writer m))
  \/ (exists e, wr m = Error e m /\ io_rooted e).

(** What a handler leaves when it fails: the merger untouched but for the
    base, and one of the errors the merge reports. *)
Definition undone_reported (m : merger) (e : error) (m' : merger) : Prop :=
  quiet m m' /\ reported e.

(** Both sides stand on a position while they are said to have one. *)
Definition on_position (m : merger) : Prop :=
  (haveSource m = true -> cur (source m) <> None)
  /\ (haveDest m = true -> cur (dest m) <> None).


(* ================================================================== *)
(** * The prefix file of the import command (cmd/lakefs/cmd/import.go) *)
(* ================================================================== *)

Module importcmd.

(** Modelled from the Go library: a [*bufio.Scanner] over an open file hands
    out the lines of the file one at a time.  [Scan] moves to the next line
    and is false once the lines are used up or a read failed; [Text] is the
    line it moved to; [Err] is the read error, nil at a plain end of file. *)
Record Scanner := {
  unread : list string;
  text : string;
  readErr : option string
}.

Definition Scan (sc : Scanner) : bool * Scanner :=
  match unread sc with
  | [] => (false, sc)
  | l :: ls => (true, {| unread := ls; text := l; readErr := readErr sc |})
  end.

Definition Text (sc : Scanner) : string := text sc.

Definition Err (sc : Scanner) : option string := readErr sc.

(** [os.Open] followed by [bufio.NewScanner]: a scanner on the file of that
    name, or the error of opening it. *)
Definition Files := string -> Scanner + string.

(** What [fmt.Printf] is called with. *)
Inductive printed :=
| FailedToReadPrefixFilter (err : string)
| FilteringAccordingTo (n : nat).

(** The loop [for scanner.Scan() { ... }]. *)
Fixpoint scan_loop (fuel : nat) (scanner : Scanner) (prefixes : list string)
  : option (Scanner * list string) :=
  let (ok, scanner) := Scan scanner in
  if ok then
    let prefix := Text scanner in
    let prefixes :=
      if negb (String.eqb prefix "") then prefixes ++ [prefix] else prefixes in
    match fuel with
    | O => None
    | S n => scan_loop n scanner prefixes
    end
  else Some (scanner, prefixes).

(** [getPrefixes]: the prefixes and the error it returns, and what it
    prints; [None] only if the loop were cut short. *)
Definition getPrefixes (open : Files) (prefixFile : string)
  : option ((list string * option string) * list printed) :=
  let prefixes := [] in
  if negb (String.eqb prefixFile "") then
    match open prefixFile with
    | inr err => Some (([], Some err), [FailedToReadPrefixFilter err])
    | inl scanner =>
        match scan_loop (List.length (unread scanner)) scanner prefixes with
        | None => None
        | Some (scanner, prefixes) =>
            match Err scanner with
            | Some err => Some (([], Some err), [FailedToReadPrefixFilter err])
            | None =>
                Some ((prefixes, None),
                      [FilteringAccordingTo (List.length prefixes)])
            end
        end
    end
  else Some ((prefixes, None), []).

(** The lines of a file that are not empty, in the order of the file. *)
Definition nonempty_lines (ls : list string) : list string :=
  filter (fun l => negb (String.eqb l "")) ls.

End importcmd.

(* ================================================================== *)
(** * The byte order *)
(* ================================================================== *)

Unset Implicit Arguments.

Lemma to_N_inj (x y : byte) : Byte.to_N x = Byte.to_N y -> x = y.
Proof.
  intros H.
  assert (E : Some x = Some y)
    by (rewrite <- (Byte.of_to_N x), <- (Byte.of_to_N y), H; reflexivity).
  now inversion E.
Qed.

Lemma Compare_refl (a : bytes.t) : bytes.Compare a a = Eq.
Proof.
  induction a as [|x a IH]; simpl; [reflexivity|].
  now rewrite N.compare_refl.
Qed.

Lemma Compare_eq (a b : bytes.t) : bytes.Compare a b = Eq -> a = b.
Proof.
  revert b; induction a as [|x a IH]; intros [|y b]; simpl; try discriminate; auto.
  destruct (N.compare_spec (Byte.to_N x) (Byte.to_N y)) as [E|E|E];
    try discriminate.
  intros H. apply to_N_inj in E. f_equal; auto.
Qed.

Lemma Compare_antisym (a b : bytes.t) :
  bytes.Compare b a = CompOpp (bytes.Compare a b).
Proof.
  revert b; induction a as [|x a IH]; intros [|y b]; simpl; auto.
  rewrite (N.compare_antisym (Byte.to_N x) (Byte.to_N y)).
  destruct (N.compare (Byte.to_N x) (Byte.to_N y)); simpl; auto.
Qed.

Lemma lt_trans (a b c : bytes.t) : bytes.lt a b -> bytes.lt b c -> bytes.lt a c.
Proof.
  unfold bytes.lt. revert b c.
  induction a as [|x a IH]; intros [|y b] [|z c]; simpl; try discriminate; auto.
  destruct (N.compare_spec (Byte.to_N x) (Byte.to_N y)) as [E1|E1|E1];
    destruct (N.compare_spec (Byte.to_N y) (Byte.to_N z)) as [E2|E2|E2];
    try discriminate; intros H1 H2.
  - rewrite E1, E2, N.compare_refl. eauto.
  - rewrite E1. now apply N.compare_lt_iff in E2 as ->.
  - rewrite <- E2. now apply N.compare_lt_iff in E1 as ->.
  - assert (E : (Byte.to_N x < Byte.to_N z)%N) by (eapply N.lt_trans; eauto).
    now apply N.compare_lt_iff in E as ->.
Qed.

Lemma lt_irrefl (a : bytes.t) : ~ bytes.lt a a.
Proof. unfold bytes.lt. now rewrite Compare_refl. Qed.

Lemma le_cases (a b : bytes.t) : bytes.le a b <-> bytes.lt a b \/ a = b.
Proof.
  unfold bytes.le, bytes.lt. split.
  - intros H. destruct (bytes.Compare a b) eqn:E; auto.
    + right. now apply Compare_eq.
    + now destruct H.
  - intros [H| ->]; [now rewrite H | now rewrite Compare_refl].
Qed.

Lemma le_refl (a : bytes.t) : bytes.le a a.
Proof. apply le_cases; auto. Qed.

Lemma lt_le (a b : bytes.t) : bytes.lt a b -> bytes.le a b.
Proof. intros; apply le_cases; auto. Qed.

Lemma le_lt_trans (a b c : bytes.t) : bytes.le a b -> bytes.lt b c -> bytes.lt a c.
Proof.
  intros [H| ->]%le_cases ?; [eapply lt_trans; eauto | assumption].
Qed.

Lemma lt_le_trans (a b c : bytes.t) : bytes.lt a b -> bytes.le b c -> bytes.lt a c.
Proof.
  intros ? [H| <-]%le_cases; [eapply lt_trans; eauto | assumption].
Qed.

Lemma le_trans (a b c : bytes.t) : bytes.le a b -> bytes.le b c -> bytes.le a c.
Proof.
  intros [H| ->]%le_cases ?; [apply lt_le; eapply lt_le_trans; eauto | assumption].
Qed.

Lemma gt_lt (a b : bytes.t) : bytes.Compare a b = Gt -> bytes.lt b a.
Proof.
  unfold bytes.lt; intros H. now rewrite Compare_antisym, H.
Qed.

Lemma Equal_eq (a b : bytes.t) : bytes.Equal a b = true -> a = b.
Proof.
  unfold bytes.Equal. destruct (bytes.Compare a b) eqn:E; try discriminate.
  intros _. now apply Compare_eq.
Qed.

Lemma is_lt_true (a b : bytes.t) : is_lt (bytes.Compare a b) = true -> bytes.lt a b.
Proof. unfold bytes.lt; now destruct (bytes.Compare a b). Qed.

Lemma is_gt_true (a b : bytes.t) : is_gt (bytes.Compare a b) = true -> bytes.lt b a.
Proof. intros H; apply gt_lt; now destruct (bytes.Compare a b). Qed.


Lemma is_le_true (a b : bytes.t) : is_le (bytes.Compare a b) = true -> bytes.le a b.
Proof. unfold bytes.le; now destruct (bytes.Compare a b). Qed.


Create HintDb keys.
#[local] Hint Resolve le_refl lt_le lt_trans le_lt_trans lt_le_trans le_trans : keys.

(* ================================================================== *)
(** * Iterators *)
(* ================================================================== *)

Lemma NextRange_wf (it : Iterator) : wf_iter it -> wf_iter (snd (NextRange it)).
Proof.
  unfold wf_iter, NextRange. intros H.
  assert (R : ranges_ok (later it))
    by (destruct (cur it) as [[r [v|]]|]; intuition).
  destruct (later it) as [|[r vs] l]; simpl in *; intuition.
Qed.

Lemma Next_wf (it : Iterator) : wf_iter it -> wf_iter (snd (Next it)).
Proof.
  intros H. unfold Next.
  destruct (cur it) as [[r ov]|] eqn:C; [|now apply NextRange_wf].
  destruct (pending it) as [|v vs] eqn:P; [now apply NextRange_wf|].
  unfold wf_iter in *. rewrite C, P in H. simpl.
  destruct ov; simpl in H; intuition.
Qed.

Lemma NextRange_cur (it : Iterator) :
  if fst (NextRange it) then exists r, cur (snd (NextRange it)) = Some (r, None)
  else cur (snd (NextRange it)) = None.
Proof.
  unfold NextRange. destruct (later it) as [|[r vs] l]; simpl; eauto.
Qed.

Lemma Next_cur (it : Iterator) :
  if fst (Next it) then exists p, cur (snd (Next it)) = Some p
  else cur (snd (Next it)) = None.
Proof.
  unfold Next.
  pose proof (NextRange_cur it) as H.
  destruct (cur it) as [[r ov]|]; [destruct (pending it)|]; simpl.
  1,3: destruct (fst (NextRange it)); [destruct H; eauto | auto].
  eauto.
Qed.

(** [NextRange] lands beyond the whole of the current range. *)
Lemma NextRange_above (it : Iterator) p p' :
  wf_iter it -> cur it = Some p -> cur (snd (NextRange it)) = Some p' ->
  bytes.lt (MaxKey (fst p)) (pkey p').
Proof.
  unfold wf_iter, NextRange. intros H C. rewrite C in H.
  destruct p as [r ov].
  assert (N : next_after (MaxKey r) (later it)) by (destruct ov; intuition).
  destruct (later it) as [|[r' vs] l]; simpl; [discriminate|].
  intros E; inversion E; subst. exact N.
Qed.

(** [Next] never moves back, and moves strictly on from a record. *)
Lemma Next_above (it : Iterator) p p' :
  wf_iter it -> cur it = Some p -> cur (snd (Next it)) = Some p' ->
  match snd p with
  | Some v => bytes.lt (Key v) (pkey p')
  | None => bytes.le (MinKey (fst p)) (pkey p')
  end.
Proof.
  intros H C. pose proof (fun q => NextRange_above it p q H C) as NR.
  unfold Next. rewrite C. destruct p as [r ov].
  unfold wf_iter in H. rewrite C in H.
  destruct (pending it) as [|v vs]; simpl.
  - intros E. specialize (NR _ E). simpl in NR.
    destruct ov as [v|]; simpl in *.
    + eapply le_lt_trans; [|exact NR]. intuition.
    + apply lt_le. eapply le_lt_trans; [|exact NR]. intuition.
  - intros E; inversion E; subst. unfold pkey; simpl.
    destruct ov; simpl in H; intuition.
Qed.

Lemma NextRange_ranges (it : Iterator) :
  incl (ranges_of (snd (NextRange it))) (ranges_of it).
Proof.
  unfold ranges_of, NextRange.
  destruct (later it) as [|[r vs] l]; simpl.
  - intros x [].
  - destruct (cur it) as [[r0 ov]|]; [apply incl_tl|]; apply incl_refl.
Qed.

Lemma Next_ranges (it : Iterator) :
  incl (ranges_of (snd (Next it))) (ranges_of it).
Proof.
  unfold Next.
  destruct (cur it) as [[r ov]|] eqn:C; [|apply NextRange_ranges].
  destruct (pending it); [apply NextRange_ranges|].
  unfold ranges_of. rewrite C. simpl. apply incl_refl.
Qed.

Lemma NextRange_ahead (it : Iterator) :
  if fst (NextRange it) then ahead (snd (NextRange it)) < ahead it
  else True.
Proof.
  unfold NextRange, ahead.
  destruct (later it) as [|[r vs] l]; simpl; [trivial | lia].
Qed.

Lemma Next_ahead (it : Iterator) :
  if fst (Next it) then ahead (snd (Next it)) < ahead it else True.
Proof.
  unfold Next.
  destruct (cur it) as [[r ov]|]; [|apply NextRange_ahead].
  destruct (pending it) eqn:P; [apply NextRange_ahead|].
  unfold ahead. rewrite P. simpl. lia.
Qed.

Lemma moved_wf a h it : wf_iter it -> wf_iter (snd (moved a h it)).
Proof.
  destruct a; simpl; auto using Next_wf, NextRange_wf.
Qed.

Lemma moved_ranges a h it : incl (ranges_of (snd (moved a h it))) (ranges_of it).
Proof.
  destruct a; simpl; auto using Next_ranges, NextRange_ranges, incl_refl.
Qed.


Lemma moved_ahead a it :
  a <> Stay ->
  fst (moved a true it) = false \/ ahead (snd (moved a true it)) < ahead it.
Proof.
  destruct a; simpl; [congruence| |]; intros _.
  - pose proof (Next_ahead it). destruct (fst (Next it)); auto.
  - pose proof (NextRange_ahead it). destruct (fst (NextRange it)); auto.
Qed.

Lemma moved_ahead_le a h it : ahead (snd (moved a h it)) <= ahead it.
Proof.
  destruct a; simpl; auto.
  - pose proof (Next_ahead it) as N. destruct (fst (Next it)) eqn:E; [lia|].
    revert E. unfold Next, NextRange.
    destruct (cur it) as [[r ov]|]; [destruct (pending it)|];
      destruct (later it) as [|[r' vs'] l']; simpl; try discriminate;
      intros _; unfold ahead; simpl; lia.
  - unfold NextRange, ahead.
    destruct (later it) as [|[r vs] l]; simpl; lia.
Qed.

Lemma below_mono k k' log : below k log -> bytes.le k k' -> below k' log.
Proof.
  destruct log; simpl; eauto with keys.
Qed.

(** A side that makes a move with nothing written stays in order. *)
Lemma side_ok_moved log it a :
  side_ok log true it ->
  side_ok log (fst (moved a true it)) (snd (moved a true it)).
Proof.
  intros [W B]. destruct (B eq_refl) as (p & C & L).
  split; [now apply moved_wf|].
  intros H. destruct a; simpl in *; eauto.
  - pose proof (Next_cur it) as N. rewrite H in N. destruct N as [p' C'].
    exists p'. split; [assumption|].
    pose proof (Next_above it _ _ W C C') as A.
    eapply below_mono; [exact L|].
    unfold pkey at 1. destruct (snd p); auto with keys.
  - pose proof (NextRange_cur it) as N. rewrite H in N. destruct N as [r C'].
    exists (r, None). split; [assumption|].
    pose proof (NextRange_above it _ _ W C C') as A.
    eapply below_mono; [exact L|]. apply lt_le.
    unfold wf_iter in W. rewrite C in W. destruct p as [r0 [v|]]; simpl in *.
    + unfold pkey; simpl. eapply le_lt_trans; [|exact A]. intuition.
    + unfold pkey; simpl. eapply le_lt_trans; [|exact A]. intuition.
Qed.

(** A side that makes a move after call [c] was written stays in order when
    [c] clears it. *)
Lemma side_ok_moved_write log it a c :
  side_ok log true it -> clears c a it ->
  side_ok (c :: log) (fst (moved a true it)) (snd (moved a true it)).
Proof.
  intros [W B] CL. destruct (B eq_refl) as (p & C & L).
  split; [now apply moved_wf|].
  unfold clears in CL. rewrite C in CL.
  intros H. destruct a; simpl in *.
  - eauto.
  - pose proof (Next_cur it) as N. rewrite H in N. destruct N as [p' C'].
    exists p'. split; [assumption|].
    pose proof (Next_above it _ _ W C C') as A.
    destruct (snd p); eauto with keys.
  - pose proof (NextRange_cur it) as N. rewrite H in N. destruct N as [r C'].
    exists (r, None). split; [assumption|].
    pose proof (NextRange_above it _ _ W C C') as A.
    destruct (snd p); eauto with keys.
Qed.


(* ================================================================== *)
(** * Rules for methods *)
(* ================================================================== *)

Lemma post_bind {A B} (c : M A) (k : A -> M B) m (P1 : A -> merger -> Prop) P Q :
  post (c m) P1 Q ->
  (forall a m1, P1 a m1 -> post (k a m1) P Q) ->
  post (bind c k m) P Q.
Proof.
  unfold bind, post. intros H K.
  destruct (c m) as [a m1|e m1|]; [now apply K | assumption | assumption].
Qed.

Lemma post_wrap {A} msg (c : M A) m P Q :
  post (c m) P (fun e m' => Q (Errorf msg e) m') ->
  post (wrap msg c m) P Q.
Proof.
  unfold wrap, post. destruct (c m); auto.
Qed.

Lemma post_weaken {A} (r : result A) (P P' : A -> merger -> Prop)
      (Q Q' : error -> merger -> Prop) :
  post r P Q ->
  (forall a m, P a m -> P' a m) -> (forall e m, Q e m -> Q' e m) ->
  post r P' Q'.
Proof.
  unfold post. destruct r; auto.
Qed.

Lemma set_base_same m : set_base (base m) m = m.
Proof. now destruct m. Qed.

Lemma set_writer_same m : set_writer (writer m) m = m.
Proof. now destruct m. Qed.

(** ** The base lookups touch nothing but the base cursor, and return *)

Lemma moveBaseToGERange_loop_eq fuel key :
  moveBaseToGERange_loop fuel key =
  (vr <- baseValue ;;
   let baseRange := snd vr in
   if nonnil_and baseRange (fun r => is_ge (bytes.Compare (MaxKey r) key))
   then ret baseRange
   else
     ok <- baseNextRange ;;
     if negb ok then (e <- baseErr ;; retErr None e)
     else match fuel with
          | O => fun _ => OutOfFuel
          | S n => moveBaseToGERange_loop n key
          end).
Proof. destruct fuel; reflexivity. Qed.

Lemma moveBaseToGEKey_loop_eq fuel key baseRange :
  moveBaseToGEKey_loop fuel key baseRange =
  (vr <- baseValue ;;
   let baseValue := fst vr in
   let innerRange := snd vr in
   if nonnil_and baseValue (fun v => is_le (bytes.Compare key (Key v)))
   then ret baseValue
   else
     ok <- baseNext ;;
     if negb ok then (e <- baseErr ;; retErr None e)
     else
       ir <- deref innerRange ;;
       br <- deref baseRange ;;
       if negb (String.eqb (ID ir) (ID br)) then (e <- baseErr ;; retErr None e)
       else match fuel with
            | O => fun _ => OutOfFuel
            | S n => moveBaseToGEKey_loop n key baseRange
            end).
Proof. destruct fuel; reflexivity. Qed.

Lemma base_moved_trans {A B} m b (a : A) (a' : B) m' :
  base_moved (set_base b m) a m' -> base_moved m a' m'.
Proof. intros [b' ->]. now exists b'. Qed.

Lemma base_failed_trans m b e m' :
  base_failed (set_base b m) e m' -> base_failed m e m'.
Proof. intros [[b' ->] ?]. split; [now exists b' | assumption]. Qed.

Lemma retErr_base {A} (a : A) m b :
  post (retErr a (Err b) (set_base b m)) (base_moved m) (base_failed m).
Proof.
  unfold Err. destruct (err b); simpl.
  - split; [now exists b | exact I].
  - now exists b.
Qed.

Lemma moveBaseToGERange_loop_post fuel : forall key m,
  List.length (later (base m)) <= fuel ->
  post (moveBaseToGERange_loop fuel key m) (base_moved m) (base_failed m).
Proof.
  induction fuel as [|n IH]; intros key m L;
    rewrite moveBaseToGERange_loop_eq; unfold bind, baseValue, baseNextRange, baseErr;
    cbv zeta;
    (destruct (nonnil_and _ _);
     [ simpl; exists (base m); now rewrite set_base_same |]);
    destruct (fst (NextRange (base m))) eqn:E; cbv beta iota; unfold negb.
  - exfalso. revert E L. unfold NextRange. simpl.
    destruct (later (base m)) as [|[r vs] l]; simpl; [discriminate | lia].
  - apply (retErr_base None m).
  - eapply post_weaken; [apply IH | |].
    + revert E L. unfold NextRange. simpl.
      destruct (later (base m)) as [|[r vs] l]; simpl; [discriminate | lia].
    + intros a m'. apply base_moved_trans.
    + intros e m'. apply base_failed_trans.
  - apply (retErr_base None m).
Qed.

Lemma moveBaseToGERange_post key m :
  post (moveBaseToGERange key m) (base_moved m) (base_failed m).
Proof.
  unfold moveBaseToGERange. now apply moveBaseToGERange_loop_post.
Qed.

Lemma moveBaseToGEKey_loop_post fuel : forall key br m,
  ahead (base m) <= fuel ->
  post (moveBaseToGEKey_loop fuel key br m) (base_moved m) (base_failed m).
Proof.
  induction fuel as [|n IH]; intros key br m L;
    rewrite moveBaseToGEKey_loop_eq; unfold bind, baseValue, baseNext, baseErr;
    cbv zeta;
    (destruct (nonnil_and _ _);
     [ simpl; exists (base m); now rewrite set_base_same |]);
    pose proof (Next_ahead (base m)) as NA;
    destruct (fst (Next (base m))) eqn:E; cbv beta iota; unfold negb;
    try apply (retErr_base None m);
    (destruct (snd (Value (base m))) as [ir|]; simpl;
     [| split; [eexists; reflexivity | exact I]]);
    (destruct br as [br|]; simpl;
     [| split; [eexists; reflexivity | exact I]]);
    (destruct (String.eqb (ID ir) (ID br)); simpl;
     [| apply (retErr_base None m)]).
  - lia.
  - eapply post_weaken; [apply IH | |].
    + simpl. lia.
    + intros a m'. apply base_moved_trans.
    + intros e m'. apply base_failed_trans.
Qed.

Lemma moveBaseToGEKey_post key m :
  post (moveBaseToGEKey key m) (base_moved m) (base_failed m).
Proof.
  unfold moveBaseToGEKey, bind, baseValue. cbv zeta.
  destruct (nonnil_and _ _).
  - simpl. exists (base m). now rewrite set_base_same.
  - pose proof (moveBaseToGERange_post key m) as R.
    destruct (moveBaseToGERange key m) as [br m1|e m1|]; simpl in *; auto.
    destruct R as [b ->].
    eapply post_weaken; [apply moveBaseToGEKey_loop_post; reflexivity | |].
    + intros a m'. apply base_moved_trans.
    + intros e m'. apply base_failed_trans.
Qed.

(* ================================================================== *)
(** * The loop invariant *)
(* ================================================================== *)

Section InvariantLemmas.

Variable G : Range -> Prop.

Lemma same_id_same_end_incl rs rd rs' rd' :
  same_id_same_end rs rd -> incl rs' rs -> incl rd' rd ->
  same_id_same_end rs' rd'.
Proof. unfold same_id_same_end; intros H ? ? r1 r2 ? ?; apply H; auto. Qed.

(** A handler that writes nothing keeps the invariant, whatever its moves. *)
Lemma Inv_after_quiet m c w b aS aD :
  Inv G m -> haveSource m = true -> haveDest m = true ->
  written w = written (writer m) ->
  Inv G (after m c w b aS aD).
Proof.
  intros (L & S & D & I & GS & GD) HS HD W.
  unfold Inv, after; simpl. rewrite W, HS, HD. rewrite HS in S. rewrite HD in D.
  split; [|split; [|split; [|split; [|split]]]].
  - exact L.
  - now apply side_ok_moved.
  - now apply side_ok_moved.
  - eapply same_id_same_end_incl; eauto using moved_ranges.
  - intros r R. apply GS. eapply moved_ranges; eauto.
  - intros r R. apply GD. eapply moved_ranges; eauto.
Qed.

(** A handler that writes one call keeps the invariant when the call starts
    above everything written and clears both sides as they move. *)
Lemma Inv_after_write m c w b aS aD k :
  Inv G m -> haveSource m = true -> haveDest m = true ->
  written w = k :: written (writer m) ->
  bytes.le (lo k) (hi k) ->
  below (lo k) (written (writer m)) ->
  (forall r, k = WRange r -> G r) ->
  clears k aS (source m) -> clears k aD (dest m) ->
  Inv G (after m c w b aS aD).
Proof.
  intros (L & S & D & I & GS & GD) HS HD W LE B GK CS CD.
  unfold Inv, after; simpl. rewrite W, HS, HD. rewrite HS in S. rewrite HD in D.
  split; [|split; [|split; [|split; [|split]]]].
  - split; simpl; [intuition; apply L|].
    intros r [E|R]; [now apply GK | now apply L].
  - now apply side_ok_moved_write.
  - now apply side_ok_moved_write.
  - eapply same_id_same_end_incl; eauto using moved_ranges.
  - intros r R. apply GS. eapply moved_ranges; eauto.
  - intros r R. apply GD. eapply moved_ranges; eauto.
Qed.

Lemma progress_after m c w b aS aD :
  haveSource m = true -> haveDest m = true ->
  aS <> Stay \/ aD <> Stay ->
  progress m (after m c w b aS aD).
Proof.
  intros HS HD H. unfold progress, after; simpl. rewrite HS, HD.
  pose proof (moved_ahead_le aS true (source m)).
  pose proof (moved_ahead_le aD true (dest m)).
  destruct H as [H|H].
  - destruct (moved_ahead aS (source m) H) as [-> | ?]; [now left | right; lia].
  - destruct (moved_ahead aD (dest m) H) as [-> | ?];
      [left; apply andb_false_r | right; lia].
Qed.

(** What the invariant says of the position a side is at. *)
Lemma Inv_source m p :
  Inv G m -> haveSource m = true -> cur (source m) = Some p ->
  below (pkey p) (written (writer m)) /\ G (fst p) /\ wf_iter (source m).
Proof.
  intros (L & [W B] & D & I & GS & GD) HS C.
  destruct (B HS) as (p' & C' & Bp). rewrite C in C'. inversion C'; subst p'.
  repeat split; auto. apply GS. unfold ranges_of. rewrite C.
  destruct p; now left.
Qed.

Lemma Inv_dest m p :
  Inv G m -> haveDest m = true -> cur (dest m) = Some p ->
  below (pkey p) (written (writer m)) /\ G (fst p) /\ wf_iter (dest m).
Proof.
  intros (L & S & [W B] & I & GS & GD) HD C.
  destruct (B HD) as (p' & C' & Bp). rewrite C in C'. inversion C'; subst p'.
  repeat split; auto. apply GD. unfold ranges_of. rewrite C.
  destruct p; now left.
Qed.

Lemma Inv_same_end m sr so dr do :
  Inv G m -> cur (source m) = Some (sr, so) -> cur (dest m) = Some (dr, do) ->
  ID sr = ID dr -> MaxKey sr = MaxKey dr.
Proof.
  intros (L & S & D & I & GS & GD) CS CD. apply I; unfold ranges_of.
  - rewrite CS; now left.
  - rewrite CD; now left.
Qed.

End InvariantLemmas.

Lemma writeRecord_post v m :
  post (writeRecord v m)
       (fun _ m' => exists w, m' = set_writer w m
                              /\ written w = WRecord v :: written (writer m))
       (fun _ m' => m' = m).
Proof.
  unfold writeRecord, WriteRecord, Write.
  destruct (failAfter (writer m)) as [[|n]|]; simpl;
    try (eexists; split; reflexivity).
  apply set_writer_same.
Qed.

Lemma writeRange_post r m :
  post (writeRange r m)
       (fun _ m' => exists w, m' = set_writer w m
                              /\ written w = WRange r :: written (writer m))
       (fun _ m' => m' = m).
Proof.
  unfold writeRange, WriteRange, Write.
  destruct (failAfter (writer m)) as [[|n]|]; simpl;
    try (eexists; split; reflexivity).
  apply set_writer_same.
Qed.

(* ================================================================== *)
(** * The handlers keep the invariant *)
(* ================================================================== *)

Lemma wrap_base {A} msg (c : M A) m :
  post (c m) (base_moved m) (base_failed m) ->
  post (wrap msg c m) (base_moved m) (base_failed m).
Proof.
  intros H. apply post_wrap. eapply post_weaken; [exact H | auto |].
  intros e m' [? ?]. split; [assumption | exact I].
Qed.

Lemma post_bind_base {A B} (c : M A) (k : A -> M B) m P Q :
  post (c m) (base_moved m) (base_failed m) ->
  (forall b e, Q e (set_base b m)) ->
  (forall a b, post (k a (set_base b m)) P Q) ->
  post (bind c k m) P Q.
Proof.
  intros H HQ HK. eapply post_bind.
  - eapply post_weaken; [exact H | intros a m' E; exact E |].
    intros e m' [[b ->] _]. apply HQ.
  - intros a m1 [b ->]. apply HK.
Qed.

Lemma post_bind_write {B} (c : M unit) (k : unit -> M B) m call P Q :
  post (c m)
       (fun _ m' => exists w, m' = set_writer w m
                              /\ written w = call :: written (writer m))
       (fun _ m' => m' = m) ->
  (forall e, Q e m) ->
  (forall w, written w = call :: written (writer m) ->
             post (k tt (set_writer w m)) P Q) ->
  post (bind c k m) P Q.
Proof.
  intros H HQ HK. eapply post_bind.
  - eapply post_weaken; [exact H | intros a m' E; exact E |].
    intros e m' ->. apply HQ.
  - intros [] m1 (w & -> & W). now apply HK.
Qed.

Lemma wrap_write msg (c : M unit) m call :
  post (c m)
       (fun _ m' => exists w, m' = set_writer w m
                              /\ written w = call :: written (writer m))
       (fun _ m' => m' = m) ->
  post (wrap msg c m)
       (fun _ m' => exists w, m' = set_writer w m
                              /\ written w = call :: written (writer m))
       (fun _ m' => m' = m).
Proof. intros H. now apply post_wrap. Qed.

Lemma quiet_base b m : quiet m (set_base b m).
Proof. repeat split. Qed.

Lemma ret_base {A} (a : A) m : post (ret a m) (base_moved m) (base_failed m).
Proof. simpl. exists (base m). now rewrite set_base_same. Qed.

Lemma bind_ret_base {A B} (c : M A) (f : A -> B) m :
  post (c m) (base_moved m) (base_failed m) ->
  post (bind c (fun x => ret (f x)) m) (base_moved m) (base_failed m).
Proof.
  intros H. unfold bind, ret. destruct (c m); simpl in *; auto.
Qed.

Ltac lookup :=
  eapply post_bind_base;
  [ first [ apply moveBaseToGEKey_post
          | apply moveBaseToGERange_post
          | apply ret_base
          | apply bind_ret_base; apply wrap_base; apply moveBaseToGERange_post
          | apply wrap_base; first [ apply moveBaseToGEKey_post
                                   | apply moveBaseToGERange_post ] ]
  | intros;
    first [ apply quiet_base
          | unfold failed; cbn;
            match goal with H : Drain _ _ _ |- _ => apply H end ]
  | intros ? ?; cbv beta ].

Ltac write :=
  eapply post_bind_write;
  [ first [ apply writeRecord_post
          | apply writeRange_post
          | apply wrap_write; first [ apply writeRecord_post
                                    | apply writeRange_post ] ]
  | intros;
    first [ apply quiet_base
          | unfold failed; cbn;
            match goal with H : Drain _ _ _ |- _ => apply H end ]
  | intros ? ?; cbv beta ].

(** Present the merger a handler leaves as [after] the moves it made. *)
Ltac as_after m :=
  unfold bind, sourceNext, sourceNextRange, destNext, destNextRange,
    set_haveSource, set_haveDest, set_source, set_dest, set_writer, set_base;
  cbn [ctx writer base source dest haveSource haveDest post];
  lazymatch goal with
  | |- context [ {| ctx := ?c; writer := ?w; base := ?b; source := ?s;
                    dest := ?d; haveSource := ?hs; haveDest := ?hd |} ] =>
      first
        [ change {| ctx := c; writer := w; base := b; source := s; dest := d;
                    haveSource := hs; haveDest := hd |}
            with (after m c w b Descend Stay)
        | change {| ctx := c; writer := w; base := b; source := s; dest := d;
                    haveSource := hs; haveDest := hd |}
            with (after m c w b Stay Descend)
        | change {| ctx := c; writer := w; base := b; source := s; dest := d;
                    haveSource := hs; haveDest := hd |}
            with (after m c w b Descend Descend)
        | change {| ctx := c; writer := w; base := b; source := s; dest := d;
                    haveSource := hs; haveDest := hd |}
            with (after m c w b Skip Stay)
        | change {| ctx := c; writer := w; base := b; source := s; dest := d;
                    haveSource := hs; haveDest := hd |}
            with (after m c w b Stay Skip)
        | change {| ctx := c; writer := w; base := b; source := s; dest := d;
                    haveSource := hs; haveDest := hd |}
            with (after m c w b Skip Skip) ]
  end.

Ltac moves_on :=
  apply progress_after; [assumption | assumption | ];
  first [ left; discriminate | right; discriminate ].

Ltac clear_side :=
  unfold clears;
  repeat match goal with
         | H : cur _ = Some _ |- _ => rewrite H
         end;
  cbn [snd fst pkey hi lo];
  repeat match goal with
         | H : Key _ = Key _ |- _ => rewrite H
         | H : MinKey _ = MinKey _ |- _ => rewrite H
         | H : MaxKey _ = MaxKey _ |- _ => rewrite H
         end;
  eauto with keys.

Section Handlers.

Variable G : Range -> Prop.

Lemma handleBothKeys_post m sr sv dr dv :
  Inv G m -> haveSource m = true -> haveDest m = true ->
  cur (source m) = Some (sr, Some sv) -> cur (dest m) = Some (dr, Some dv) ->
  post (handleBothKeys sv dv m) (handled G m) (undone m).
Proof.
  intros I HS HD CS CD.
  destruct (Inv_source G m _ I HS CS) as (BS & GS & WS).
  destruct (Inv_dest G m _ I HD CD) as (BD & GD & WD).
  unfold pkey in BS, BD; simpl in BS, BD.
  unfold handleBothKeys, handled, undone.
  destruct (bytes.Compare (Key sv) (Key dv)) eqn:C.
  - apply Compare_eq in C.
    lookup.
    destruct (negb _); [destruct a as [bv|]|].
    + eapply post_bind with (P1 := fun _ m' =>
        exists w k, m' = set_writer w (set_base b m)
                    /\ written w = k :: written (writer m)
                    /\ (k = WRecord sv \/ k = WRecord dv)).
      * destruct (bytes.Equal (Identity sv) (Identity bv));
          [|destruct (bytes.Equal (Identity dv) (Identity bv))].
        -- apply post_wrap.
           eapply post_weaken; [apply writeRecord_post | |].
           ++ intros _ m' (w & -> & W). exists w, (WRecord dv). auto.
           ++ intros e m' ->. apply quiet_base.
        -- apply post_wrap.
           eapply post_weaken; [apply writeRecord_post | |].
           ++ intros _ m' (w & -> & W). exists w, (WRecord sv). auto.
           ++ intros e m' ->. apply quiet_base.
        -- apply quiet_base.
      * intros _ m1 (w & k & -> & W & K).
        as_after m. split; [|moves_on].
        eapply Inv_after_write with (k := k); eauto;
          destruct K as [-> | ->]; simpl; rewrite ?C in *;
          auto with keys; try discriminate; clear_side.
    + apply quiet_base.
    + write. as_after m. split; [|moves_on].
      eapply Inv_after_write with (k := WRecord sv); eauto;
        simpl; rewrite ?C in *; auto with keys; try discriminate; clear_side.
  - lookup.
    destruct (nonnil_and _ _); [|destruct (nonnil_and _ _)].
    + as_after m. split; [|moves_on]. now apply Inv_after_quiet.
    + apply quiet_base.
    + write. as_after m. split; [|moves_on].
      eapply Inv_after_write with (k := WRecord sv); eauto;
        simpl; auto with keys; try discriminate; clear_side.
  - apply gt_lt in C.
    lookup.
    destruct (nonnil_and _ _); [|destruct (nonnil_and _ _)].
    + as_after m. split; [|moves_on]. now apply Inv_after_quiet.
    + apply quiet_base.
    + write. as_after m. split; [|moves_on].
      eapply Inv_after_write with (k := WRecord dv); eauto;
        simpl; auto with keys; try discriminate; clear_side.
Qed.

Lemma handleDestRangeSourceKey_post m sr sv dr :
  Inv G m -> haveSource m = true -> haveDest m = true ->
  cur (source m) = Some (sr, Some sv) -> cur (dest m) = Some (dr, None) ->
  post (handleDestRangeSourceKey dr sv m) (handled G m) (undone m).
Proof.
  intros I HS HD CS CD.
  destruct (Inv_source G m _ I HS CS) as (BS & GS & WS).
  destruct (Inv_dest G m _ I HD CD) as (BD & GD & WD).
  unfold pkey in BS, BD; simpl in BS, BD.
  unfold handleDestRangeSourceKey, handled, undone.
  destruct (is_gt _) eqn:C.
  - apply is_gt_true in C.
    lookup.
    destruct (nonnil_and _ _); [|destruct (nonnil_and _ _)].
    + as_after m. split; [|moves_on]. now apply Inv_after_quiet.
    + apply quiet_base.
    + write. as_after m. split; [|moves_on].
      eapply Inv_after_write with (k := WRecord sv); eauto;
        simpl; auto with keys; try discriminate; clear_side.
  - destruct (is_lt _); lookup; destruct a;
      as_after m; (split; [|moves_on]); now apply Inv_after_quiet.
Qed.

Lemma handleSourceRangeDestKey_post m sr dr dv :
  Inv G m -> haveSource m = true -> haveDest m = true ->
  cur (source m) = Some (sr, None) -> cur (dest m) = Some (dr, Some dv) ->
  post (handleSourceRangeDestKey sr dv m) (handled G m) (undone m).
Proof.
  intros I HS HD CS CD.
  destruct (Inv_source G m _ I HS CS) as (BS & GS & WS).
  destruct (Inv_dest G m _ I HD CD) as (BD & GD & WD).
  unfold pkey in BS, BD; simpl in BS, BD.
  unfold handleSourceRangeDestKey, handled, undone.
  destruct (is_gt _) eqn:C.
  - apply is_gt_true in C.
    lookup.
    destruct (nonnil_and _ _); [|destruct (nonnil_and _ _)].
    + as_after m. split; [|moves_on]. now apply Inv_after_quiet.
    + apply quiet_base.
    + write. as_after m. split; [|moves_on].
      eapply Inv_after_write with (k := WRecord dv); eauto;
        simpl; auto with keys; try discriminate; clear_side.
  - destruct (is_lt _); lookup; destruct a;
      as_after m; (split; [|moves_on]); now apply Inv_after_quiet.
Qed.

Lemma handleBothRanges_post m sr dr :
  Inv G m -> haveSource m = true -> haveDest m = true ->
  cur (source m) = Some (sr, None) -> cur (dest m) = Some (dr, None) ->
  post (handleBothRanges sr dr m) (handled G m) (undone m).
Proof.
  intros I HS HD CS CD.
  destruct (Inv_source G m _ I HS CS) as (BS & GS & WS).
  destruct (Inv_dest G m _ I HD CD) as (BD & GD & WD).
  pose proof (Inv_same_end G m _ _ _ _ I CS CD) as SE.
  unfold pkey in BS, BD; simpl in BS, BD, GS, GD.
  unfold wf_iter in WS, WD. rewrite CS in WS. rewrite CD in WD.
  destruct WS as (LS & _). destruct WD as (LD & _).
  unfold handleBothRanges, handled, undone.
  destruct (String.eqb (ID sr) (ID dr)) eqn:E.
  { apply String.eqb_eq in E. specialize (SE E).
    rewrite <- (set_base_same m) at 1.
    write. as_after m. split; [|moves_on].
    eapply Inv_after_write with (k := WRange sr); eauto;
      simpl; auto with keys; try (intros ? [= <-]; assumption); clear_side. }
  clear SE.
  destruct (is_lt (bytes.Compare (MaxKey sr) (MinKey dr))) eqn:C1.
  { apply is_lt_true in C1. lookup.
    destruct (nonnil_and _ _); [|destruct (nil_or _ _)].
    - as_after m. split; [|moves_on]. now apply Inv_after_quiet.
    - write. as_after m. split; [|moves_on].
      eapply Inv_after_write with (k := WRange sr); eauto;
        simpl; auto with keys; try (intros ? [= <-]; assumption); clear_side.
    - as_after m. split; [|moves_on]. now apply Inv_after_quiet. }
  destruct (is_lt (bytes.Compare (MaxKey dr) (MinKey sr))) eqn:C2.
  { apply is_lt_true in C2. lookup.
    destruct (nonnil_and _ _); [|destruct (nil_or _ _)].
    - write. as_after m. split; [|moves_on].
      eapply Inv_after_write with (k := WRange dr); eauto;
        simpl; auto with keys; try (intros ? [= <-]; assumption); clear_side.
    - as_after m. split; [|moves_on]. now apply Inv_after_quiet.
    - as_after m. split; [|moves_on]. now apply Inv_after_quiet. }
  destruct (bytes.Equal (MinKey sr) (MinKey dr)) eqn:E1;
    [destruct (bytes.Equal (MaxKey sr) (MaxKey dr)) eqn:E2|]; simpl.
  - apply Equal_eq in E1, E2. lookup.
    destruct (nonnil_and _ _); [destruct (nonnil_and _ _)|].
    + write. as_after m. split; [|moves_on].
      eapply Inv_after_write with (k := WRange dr); eauto;
        simpl; auto with keys; try (intros ? [= <-]; assumption); clear_side.
    + write. as_after m. split; [|moves_on].
      eapply Inv_after_write with (k := WRange sr); eauto;
        simpl; auto with keys; try (intros ? [= <-]; assumption); clear_side.
    + as_after m. split; [|moves_on]. now apply Inv_after_quiet.
  - rewrite <- (set_base_same m) at 1.
    as_after m. split; [|moves_on]. now apply Inv_after_quiet.
  - rewrite <- (set_base_same m) at 1.
    as_after m. split; [|moves_on]. now apply Inv_after_quiet.
Qed.

End Handlers.

(* ================================================================== *)
(** * The main loop keeps the invariant and ends *)
(* ================================================================== *)

Section Loop.

Variable G : Range -> Prop.

Lemma dispatch_post m :
  Inv G m -> haveSource m = true -> haveDest m = true ->
  post (dispatch m) (handled G m) (undone m).
Proof.
  intros I HS HD.
  pose proof I as (_ & [_ BS] & [_ BD] & _).
  destruct (BS HS) as ([sr so] & CS & _).
  destruct (BD HD) as ([dr do] & CD & _).
  unfold dispatch, bind, iterValue, iter, Value. rewrite CS, CD.
  destruct so as [sv|], do as [dv|]; simpl.
  - now apply handleBothKeys_post with (sr := sr) (dr := dr).
  - now apply handleDestRangeSourceKey_post with (sr := sr).
  - now apply handleSourceRangeDestKey_post with (dr := dr).
  - now apply handleBothRanges_post.
Qed.


Lemma iteration_post m :
  Inv G m -> haveSource m = true -> haveDest m = true ->
  post (iteration m) (handled G m) (failed G).
Proof.
  intros I HS HD. unfold iteration.
  eapply post_bind with (P1 := fun _ m' => exists c, m' = set_ctx c m).
  { unfold checkDone. destruct (fst (Done (ctx m))); simpl; eauto.
    apply I. }
  intros _ m0 [c ->].
  eapply post_bind with (P1 := handled G m).
  { eapply post_weaken;
      [apply (dispatch_post (set_ctx c m)); assumption | |].
    - intros a m' H; exact H.
    - intros e m' (W & _). unfold failed. rewrite W. apply I. }
  intros _ m1 [I1 P1].
  unfold bind, iterErr, baseErr, iter.
  destruct (Err (source m1)); simpl; [apply I1|].
  destruct (Err (dest m1)); simpl; [apply I1|].
  destruct (Err (base m1)); simpl; [apply I1|].
  split; assumption.
Qed.

Lemma merge_loop_done fuel m :
  haveSource m && haveDest m = false -> merge_loop fuel m = Ok tt m.
Proof. intros H. destruct fuel; simpl; now rewrite H. Qed.

(** The main loop returns once one side is exhausted, with the invariant. *)
Lemma merge_loop_post fuel : forall m,
  Inv G m -> ahead (source m) + ahead (dest m) < fuel ->
  post (merge_loop fuel m)
       (fun _ m' => Inv G m' /\ haveSource m' && haveDest m' = false)
       (failed G).
Proof.
  induction fuel as [|n IH]; intros m I L; [lia|].
  destruct (haveSource m && haveDest m) eqn:H.
  - simpl. rewrite H. apply andb_true_iff in H as [HS HD].
    eapply post_bind; [now apply iteration_post|].
    intros _ m1 [I1 [P|P]].
    + rewrite merge_loop_done by assumption. simpl. auto.
    + apply IH; [assumption | lia].
  - rewrite merge_loop_done by assumption. simpl. auto.
Qed.

End Loop.

(* ================================================================== *)
(** * The tail phase keeps the log in order and ends *)
(* ================================================================== *)

Lemma handleAll_loop_eq fuel s :
  handleAll_loop fuel s =
  (checkDone ;;;
   vr <- iterValue s ;;
   let continue :=
     match fuel with
     | O => fun _ => OutOfFuel
     | S n => handleAll_loop n s
     end in
   match fst vr with
   | None =>
       iterRange <- deref (snd vr) ;;
       baseRange <- wrap "base range GE" (moveBaseToGERange (MinKey iterRange)) ;;
       (if nil_or baseRange (fun b => negb (String.eqb (ID b) (ID iterRange)))
        then writeRange iterRange
        else ret tt) ;;;
       ok <- iterNextRange s ;;
       if negb ok then (e <- iterErr s ;; retErr tt e) else continue
   | Some iterValue =>
       baseValue <- wrap "base value GE" (moveBaseToGEKey (Key iterValue)) ;;
       (if nil_or baseValue
             (fun b => negb (bytes.Equal (Identity b) (Identity iterValue)))
        then writeRecord iterValue
        else ret tt) ;;;
       ok <- iterNext s ;;
       if negb ok then (e <- iterErr s ;; retErr tt e) else continue
   end).
Proof. destruct fuel; reflexivity. Qed.

Section Tail.

Variable G : Range -> Prop.

Lemma log_ok_cons k log :
  log_ok G log -> bytes.le (lo k) (hi k) -> below (lo k) log ->
  (forall r, k = WRange r -> G r) ->
  log_ok G (k :: log).
Proof.
  intros [O GL] ? ? GK. split; simpl; [auto|].
  intros r [E|R]; auto.
Qed.

(** One step of the tail phase: the position is written or not, and left by
    move [a]. *)
Lemma Drain_next s m m' a :
  Drain G s m ->
  iter s m' = snd (moved a true (iter s m)) ->
  fst (moved a true (iter s m)) = true ->
  (written (writer m') = written (writer m)
   \/ exists k, written (writer m') = k :: written (writer m)
                /\ bytes.le (lo k) (hi k)
                /\ below (lo k) (written (writer m))
                /\ (forall r, k = WRange r -> G r)
                /\ clears k a (iter s m)) ->
  Drain G s m'.
Proof.
  intros (L & S & GR) E T W. unfold Drain. rewrite E.
  assert (GR' : forall r, In r (ranges_of (snd (moved a true (iter s m)))) -> G r)
    by (intros r R; apply GR; eapply moved_ranges; eauto).
  destruct W as [-> | (k & -> & LE & B & GK & C)].
  - repeat split; auto.
    + apply L.
    + apply L.
    + apply (side_ok_moved _ _ a) in S. apply S.
    + apply (side_ok_moved _ _ a) in S. rewrite T in S. apply S.
  - split; [now apply log_ok_cons|]. split; [|assumption].
    pose proof (side_ok_moved_write _ _ a k S C) as S'.
    now rewrite T in S'.
Qed.

Lemma Drain_at s m :
  Drain G s m ->
  exists p, cur (iter s m) = Some p
            /\ below (pkey p) (written (writer m)) /\ G (fst p)
            /\ wf_iter (iter s m).
Proof.
  intros (L & [W B] & GR). destruct (B eq_refl) as (p & C & Bp).
  exists p. repeat split; auto.
  apply GR. unfold ranges_of. rewrite C. destruct p; now left.
Qed.

End Tail.

Lemma maybe_write_post (c : bool) (wr : M unit) k m :
  post (wr m)
       (fun _ m' => exists w, m' = set_writer w m
                              /\ written w = k :: written (writer m))
       (fun _ m' => m' = m) ->
  post ((if c then wr else ret tt) m)
       (fun _ m' => exists w, m' = set_writer w m
                              /\ (written w = written (writer m)
                                  \/ written w = k :: written (writer m)))
       (fun _ m' => m' = m).
Proof.
  intros H. destruct c.
  - eapply post_weaken; [exact H | | auto].
    intros _ m' (w & -> & W). eauto.
  - simpl. exists (writer m). now rewrite set_writer_same; auto.
Qed.

Section TailLoop.

Variable G : Range -> Prop.

Lemma drained_trans m m1 a m' :
  haveSource m1 = haveSource m -> haveDest m1 = haveDest m ->
  drained G m1 a m' -> drained G m a m'.
Proof. intros HS HD (L & S & D). split; [exact L | split; congruence]. Qed.

(** The tail phase returns, and leaves the log in order. *)
Lemma handleAll_loop_post fuel : forall s m,
  Drain G s m -> ahead (iter s m) <= fuel ->
  post (handleAll_loop fuel s m) (drained G m) (failed G).
Proof.
  induction fuel as [|n IH]; intros s m D L; rewrite handleAll_loop_eq.
  all: eapply post_bind with (P1 := fun _ m' => exists c, m' = set_ctx c m);
    [ unfold checkDone; destruct (fst (Done (ctx m))); simpl; eauto; apply D | ].
  all: intros _ m0 [c ->].
  all: destruct (Drain_at G s m D) as ([r [v|]] & C & B & GR & W).
  all: unfold pkey in B; simpl in B, GR.
  all: pose proof W as W'; unfold wf_iter in W'; rewrite C in W'.
  all: pose proof (Next_ahead (iter s m)) as NA.
  all: pose proof (NextRange_ahead (iter s m)) as NRA.
  all: assert (D0 : Drain G s (set_ctx c m)) by (destruct s; exact D).
  all: unfold bind at 1, iterValue; cbv zeta.
  all: replace (Value (iter s (set_ctx c m))) with (Value (iter s m))
    by (destruct s; reflexivity).
  all: unfold Value; rewrite C; cbn [fst snd deref].
  all: try (unfold bind at 1, ret).
  all: lookup.
  all: eapply post_bind;
    [ eapply post_weaken;
      [ apply maybe_write_post;
        first [ apply writeRecord_post | apply writeRange_post ]
      | intros ? ? H; exact H
      | intros ? ? ->; apply D ]
    | intros _ m1 (w & -> & Wd) ].
  all: cbn in Wd; destruct W' as (LE & _).
  all: assert (LW : log_ok G (written w))
    by (destruct Wd as [-> | ->];
        [ apply D
        | apply log_ok_cons; simpl; auto with keys;
          [ apply D | intros ? E; inversion E; subst; assumption ] ]).
  all: unfold bind, iterNext, iterNextRange, iterErr; cbv beta.
  all: replace (iter s (set_writer w (set_base b (set_ctx c m))))
    with (iter s m) by (destruct s; reflexivity).
  all: match goal with
       | |- context [negb (fst ?x)] => destruct (fst x) eqn:T
       end; cbn [negb].
  all: try (unfold Err;
            match goal with
            | |- context [err ?i] => destruct (err i)
            end; simpl;
            first [ destruct s; exact LW
                  | split; [destruct s; exact LW | destruct s; split; reflexivity] ]).
  - simpl. lia.
  - simpl. lia.
  - eapply post_weaken; [apply IH | | intros e m' H; exact H].
    + apply (Drain_next G s m _ Descend D);
        [ destruct s; reflexivity | exact T | ].
      replace (written (writer (set_iter s (snd (Next (iter s m)))
                 (set_writer w (set_base b (set_ctx c m))))))
        with (written w) by (destruct s; reflexivity).
      destruct Wd as [E | E]; [now left | right].
      exists (WRecord v). unfold clears. rewrite C. simpl.
      repeat split; auto with keys. discriminate.
    + replace (iter s (set_iter s (snd (Next (iter s m)))
                 (set_writer w (set_base b (set_ctx c m)))))
        with (snd (Next (iter s m))) by (destruct s; reflexivity).
      lia.
    + intros a0 m'. apply drained_trans; destruct s; reflexivity.
  - eapply post_weaken; [apply IH | | intros e m' H; exact H].
    + apply (Drain_next G s m _ Skip D);
        [ destruct s; reflexivity | exact T | ].
      replace (written (writer (set_iter s (snd (NextRange (iter s m)))
                 (set_writer w (set_base b (set_ctx c m))))))
        with (written w) by (destruct s; reflexivity).
      destruct Wd as [E | E]; [now left | right].
      exists (WRange r). unfold clears. rewrite C. simpl.
      repeat split; auto with keys. now intros ? [= <-].
    + replace (iter s (set_iter s (snd (NextRange (iter s m)))
                 (set_writer w (set_base b (set_ctx c m)))))
        with (snd (NextRange (iter s m))) by (destruct s; reflexivity).
      lia.
    + intros a0 m'. apply drained_trans; destruct s; reflexivity.
Qed.

(** [handleAll], with the bound it runs under. *)
Lemma handleAll_post s m :
  Drain G s m -> post (handleAll s m) (drained G m) (failed G).
Proof.
  intros D. unfold handleAll. now apply handleAll_loop_post.
Qed.

End TailLoop.

(* ================================================================== *)
(** * The whole merge *)
(* ================================================================== *)

Section Whole.

Variable G : Range -> Prop.

Lemma merge_post m :
  written (writer m) = [] ->
  wf_iter (source m) -> wf_iter (dest m) ->
  same_id_same_end (ranges_of (source m)) (ranges_of (dest m)) ->
  (forall r, In r (ranges_of (source m)) -> G r) ->
  (forall r, In r (ranges_of (dest m)) -> G r) ->
  post (merge m) (fun _ m' => log_ok G (written (writer m'))) (failed G).
Proof.
  intros W WS WD SE GS GD. unfold merge.
  eapply post_bind with (P1 := fun _ m1 => Inv G m1).
  { unfold prime, bind, sourceNext, destNext, baseNext, ret; simpl.
    unfold Inv; simpl. rewrite W.
    split; [split; [exact I | intros r []]|].
    split; [|split; [|split; [|split]]].
    - split; [now apply Next_wf|]. intros H.
      pose proof (Next_cur (source m)) as N. rewrite H in N.
      destruct N as [p N]. exists p. now split.
    - split; [now apply Next_wf|]. intros H.
      pose proof (Next_cur (dest m)) as N. rewrite H in N.
      destruct N as [p N]. exists p. now split.
    - eapply same_id_same_end_incl; eauto using Next_ranges.
    - intros r R. apply GS. eapply Next_ranges; eauto.
    - intros r R. apply GD. eapply Next_ranges; eauto. }
  intros _ m1 I1.
  eapply post_bind; [apply merge_loop_post; [exact I1 | lia]|].
  intros _ m2 [I2 H2]. cbv beta.
  assert (L2 : log_ok G (written (writer m2))) by apply I2.
  eapply post_bind with (P1 := fun _ m3 =>
    log_ok G (written (writer m3))
    /\ (haveDest m3 = true -> Drain G Dest m3)).
  { destruct (haveSource m2) eqn:HS.
    - simpl in H2.
      eapply post_weaken; [apply handleAll_post | | intros e m' H; exact H].
      + destruct I2 as (L & S & _ & _ & GS2 & _). rewrite HS in S.
        repeat split; try apply L; try apply S; assumption.
      + intros _ m3 (L3 & _ & HD3). split; [assumption|]. congruence.
    - simpl. split; [assumption|]. intros HD.
      destruct I2 as (L & _ & D & _ & _ & GD2). rewrite HD in D.
      repeat split; try apply L; try apply D; assumption. }
  intros _ m3 [L3 D3]. cbv beta.
  destruct (haveDest m3) eqn:HD; [|exact L3].
  eapply post_weaken; [apply handleAll_post; auto | | intros e m' H; exact H].
  intros _ m4 (L4 & _). exact L4.
Qed.

End Whole.

(** ** From the log of calls to the keys emitted *)

Lemma increasing_app a b :
  increasing a -> increasing b ->
  (forall x y, In x a -> In y b -> bytes.lt x y) ->
  increasing (a ++ b).
Proof.
  induction a as [|k a IH]; simpl; intros A B AB; [assumption|].
  destruct A as [F A]. split.
  - apply Forall_app. split; [assumption|].
    apply Forall_forall. intros y Y. apply AB; auto.
  - apply IH; auto.
Qed.

Lemma increasing_NoDup ks : increasing ks -> NoDup ks.
Proof.
  induction ks as [|k ks IH]; simpl; intros H; constructor.
  - intros I. destruct H as [F _].
    rewrite Forall_forall in F. exact (lt_irrefl k (F k I)).
  - apply IH, H.
Qed.

Lemma recs_ok_keys vs : forall lo strict hi,
  recs_ok lo strict vs hi ->
  increasing (map Key vs)
  /\ Forall (fun k => (if strict then bytes.lt lo k else bytes.le lo k)
                      /\ bytes.le k hi) (map Key vs).
Proof.
  induction vs as [|v vs IH]; simpl; intros lo strict hi H; [auto|].
  destruct H as (L & U & R). destruct (IH _ _ _ R) as [I F].
  assert (LT : bytes.le lo (Key v)) by (destruct strict; auto with keys).
  split; [split; [|assumption]|constructor; [auto|]].
  - eapply Forall_impl; [|exact F]. simpl. intuition.
  - eapply Forall_impl; [|exact F]. simpl. intros k [K ?]. split; [|assumption].
    destruct strict; eauto with keys.
Qed.

Section Emitted.

Variable content : Range -> list ValueRecord.

Lemma call_keys k :
  (forall r, k = WRange r -> range_sound content r) ->
  increasing (emitted content [k])
  /\ forall x, In x (emitted content [k]) ->
               bytes.le (lo k) x /\ bytes.le x (hi k).
Proof.
  intros S. unfold emitted; simpl. rewrite app_nil_r.
  destruct k as [r|v]; simpl.
  - destruct (S r eq_refl) as [_ R].
    destruct (recs_ok_keys _ _ _ _ R) as [I F]. split; [assumption|].
    intros x X. rewrite Forall_forall in F. exact (F x X).
  - split; [split; [constructor | exact I]|].
    intros x [<-|[]]. auto with keys.
Qed.

(** A log in order emits increasing keys, all below whatever the log lies
    below. *)
Lemma log_ok_emitted log :
  log_ok (range_sound content) log ->
  increasing (emitted content (rev log))
  /\ forall k0 x, below k0 log -> In x (emitted content (rev log)) ->
                  bytes.lt x k0.
Proof.
  induction log as [|k log IH]; intros [O GL]; simpl.
  - split; [exact I | intros ? ? _ []].
  - destruct O as (LE & B & O).
    destruct IH as [IH1 IH2]; [split; [assumption | intros; apply GL; now right]|].
    destruct (call_keys k) as [K1 K2]; [intros; apply GL; now left|].
    unfold emitted in *. rewrite flat_map_app. split.
    + apply increasing_app; auto.
      intros x y X Y. destruct (K2 y Y) as [? ?].
      eapply lt_le_trans; [apply (IH2 (lo k)); eassumption | assumption].
    + intros k0 x B0 X. apply in_app_or in X as [X|X].
      * eapply lt_trans; [apply (IH2 (lo k)); eassumption|].
        eapply le_lt_trans; eassumption.
      * destruct (K2 x X) as [? ?]. eapply le_lt_trans; eassumption.
Qed.

End Emitted.

Lemma ranges_ok_sound content l :
  ranges_ok l -> (forall r vs, In (r, vs) l -> content r = vs) ->
  forall r, In r (map fst l) -> range_sound content r.
Proof.
  induction l as [|[r0 vs0] l IH]; simpl; intros R C r; [intros []|].
  destruct R as (LE & RO & _ & R).
  intros [<-|H].
  - split; [assumption|]. now rewrite (C r0 vs0) by auto.
  - apply IH; auto.
Qed.

(* ================================================================== *)
(** * Properties of the merge *)
(* ================================================================== *)

(** C3. For all inputs that satisfy the invariants of the data model (sorted
    records within the bounds of their range, successive ranges apart, ranges
    of source and dest with one id ending at the same key), whatever the base,
    the cancellation and the writer's failures, the merge returns, and the
    keys it has emitted to the writer (the records written one by one and the
    records of the ranges written whole, in the order of the calls) are
    strictly increasing in byte order; in particular no key is emitted
    twice. *)
Theorem merge_emits_strictly_increasing_keys :
  forall (c : Context) (w : MetaRangeWriter) (b : Iterator)
         (s d : list (Range * list ValueRecord)) (fs fd : option string)
         (content : Range -> list ValueRecord),
    written w = [] ->
    ranges_ok s -> ranges_ok d ->
    same_id_same_end (map fst s) (map fst d) ->
    (forall r vs, In (r, vs) (s ++ d) -> content r = vs) ->
    exists e m',
      Merge c w b (NewIterator s fs) (NewIterator d fd) = returned e m'
      /\ increasing (emitted content (output (writer m')))
      /\ NoDup (emitted content (output (writer m'))).
Proof.
  intros c w b s d fs fd content W RS RD SE C.
  set (m := {| ctx := c; writer := w; base := b; source := NewIterator s fs;
               dest := NewIterator d fd; haveSource := false;
               haveDest := false |}).
  assert (P : post (merge m)
                (fun _ m' => log_ok (range_sound content) (written (writer m')))
                (failed (range_sound content))).
  { apply merge_post; simpl; auto.
    - intros r R. apply (ranges_ok_sound content s); auto.
      intros r0 vs I. apply C. apply in_or_app. now left.
    - intros r R. apply (ranges_ok_sound content d); auto.
      intros r0 vs I. apply C. apply in_or_app. now right. }
  unfold Merge. fold m.
  destruct (merge m) as [[] m'|e m'|]; simpl in P; [| |contradiction].
  - exists None, m'. split; [reflexivity|].
    destruct (log_ok_emitted content _ P) as [I _].
    split; [exact I | now apply increasing_NoDup].
  - exists (Some e), m'. split; [reflexivity|].
    destruct (log_ok_emitted content _ P) as [I _].
    split; [exact I | now apply increasing_NoDup].
Qed.

Lemma merge_emits_strictly_increasing_keys_witness :
  exists e m',
    Merge background newWriter (NewIterator [] None)
          (NewIterator [(rng "S" "a" "b", [rec "a" "1"; rec "b" "2"])] None)
          (NewIterator [(rng "D" "c" "c", [rec "c" "3"])] None)
    = returned e m'
    /\ increasing
         (emitted (fun r => if String.eqb (ID r) "S"
                            then [rec "a" "1"; rec "b" "2"]
                            else [rec "c" "3"])
                  (output (writer m')))
    /\ NoDup
         (emitted (fun r => if String.eqb (ID r) "S"
                            then [rec "a" "1"; rec "b" "2"]
                            else [rec "c" "3"])
                  (output (writer m'))).
Proof.
  apply merge_emits_strictly_increasing_keys.
  - reflexivity.
  - simpl. unfold bytes.le, bytes.lt. simpl.
    repeat split; discriminate.
  - simpl. unfold bytes.le, bytes.lt. simpl.
    repeat split; discriminate.
  - intros r1 r2 [<-|[]] [<-|[]]. simpl. discriminate.
  - intros r vs [E|[E|[]]]; inversion E; reflexivity.
Defined.

(** ** Merging a tree with itself *)

Lemma ahead_ge_later it : List.length (later it) <= ahead it.
Proof.
  unfold ahead. induction (later it) as [|p l IH]; simpl; lia.
Qed.

Lemma iteration_same r vs l log b :
  err b = None ->
  iteration (mergingSame log b (atHeader r vs l) (atHeader r vs l) true)
  = Ok tt (match l with
           | [] => mergingSame (WRange r :: log) b atEnd atEnd false
           | (r', vs') :: l' =>
               mergingSame (WRange r :: log) b (atHeader r' vs' l')
                           (atHeader r' vs' l') true
           end).
Proof.
  intros E.
  unfold iteration, dispatch, bind, checkDone, iterValue, iterErr, baseErr,
    handleBothRanges, Err, mergingSame; simpl.
  rewrite String.eqb_refl.
  unfold bind, writeRange, sourceNextRange, destNextRange; simpl.
  destruct l as [|[r' vs'] l']; simpl; rewrite E; reflexivity.
Qed.

Lemma merge_loop_S_same n log b s d :
  merge_loop (S n) (mergingSame log b s d true)
  = bind iteration (fun _ => merge_loop n) (mergingSame log b s d true).
Proof. reflexivity. Qed.

Lemma merge_loop_same l : forall r vs log b fuel,
  err b = None -> List.length l < fuel ->
  merge_loop fuel (mergingSame log b (atHeader r vs l) (atHeader r vs l) true)
  = Ok tt (mergingSame (rev (map (fun p => WRange (fst p)) l) ++ WRange r :: log)
                       b atEnd atEnd false).
Proof.
  induction l as [|[r' vs'] l IH]; intros r vs log b fuel E L;
    (destruct fuel as [|n]; [simpl in L; lia|]);
    rewrite merge_loop_S_same;
    unfold bind at 1; rewrite iteration_same by assumption.
  - now destruct n.
  - rewrite IH by (simpl in L; auto; lia).
    simpl. now rewrite <- app_assoc.
Qed.

(** C6. Idempotence: merging a tree with itself over itself (no failure of the
    collaborators, no cancellation) returns without error, and the writer has
    received exactly the ranges of the tree, in order, each by one
    [WriteRange]; no record is written on its own. *)
Theorem merge_idempotent :
  forall X : list (Range * list ValueRecord),
    exists m',
      Merge background newWriter (NewIterator X None) (NewIterator X None)
            (NewIterator X None) = Ok tt m'
      /\ output (writer m') = map (fun p => WRange (fst p)) X.
Proof.
  intros [|[r vs] l].
  - eexists. split; reflexivity.
  - unfold Merge, merge, bind at 1.
    assert (P : prime {| ctx := background; writer := newWriter;
                         base := NewIterator ((r, vs) :: l) None;
                         source := NewIterator ((r, vs) :: l) None;
                         dest := NewIterator ((r, vs) :: l) None;
                         haveSource := false; haveDest := false |}
                = Ok tt (mergingSame [] (atHeader r vs l) (atHeader r vs l)
                                     (atHeader r vs l) true))
      by reflexivity.
    rewrite P. unfold bind at 1.
    rewrite merge_loop_same; [| reflexivity |].
    + eexists. split; [reflexivity|].
      unfold output; simpl. rewrite rev_app_distr, rev_involutive. reflexivity.
    + pose proof (ahead_ge_later (atHeader r vs l)). simpl in *. lia.
Qed.

(* ================================================================== *)
(** * The base lookups *)
(* ================================================================== *)

Lemma le_is_ge a b : bytes.le b a -> is_ge (bytes.Compare a b) = true.
Proof.
  unfold bytes.le. rewrite (Compare_antisym a b).
  destruct (bytes.Compare a b); simpl; congruence.
Qed.

Lemma NoDup_next_differs r l :
  NoDup (map ID (r :: map fst l)) -> next_differs r l.
Proof.
  destruct l as [|p l]; simpl; [trivial|].
  intros N. inversion N as [|? ? NI _]; subst.
  intros E. apply NI. left. exact E.
Qed.

Lemma NoDup_ranges_NextRange b :
  NoDup (map ID (ranges_of b)) ->
  fst (NextRange b) = true ->
  NoDup (map ID (ranges_of (snd (NextRange b)))).
Proof.
  unfold ranges_of, NextRange.
  destruct (later b) as [|[r vs] l]; simpl; [discriminate|].
  intros N _. destruct (cur b) as [[r0 ov]|]; simpl in N; [|exact N].
  now inversion N.
Qed.

(** [moveBaseToGERange] finds the range [seek_ge_range] names and leaves the
    base in it; when there is none it leaves the base at its end. *)
Lemma moveBaseToGERange_loop_spec fuel : forall key m,
  List.length (later (base m)) <= fuel ->
  NoDup (map ID (ranges_of (base m))) ->
  post (moveBaseToGERange_loop fuel key m)
       (fun v m' =>
          (exists b, m' = set_base b m)
          /\ match seek_ge_range key (base m) with
             | Some (r, vs) => v = Some r /\ positioned (base m') r vs
             | None => v = None /\ cur (base m') = None
                       /\ pending (base m') = [] /\ later (base m') = []
             end)
       (fun _ _ => seek_ge_range key (base m) = None).
Proof.
  induction fuel as [|n IH]; intros key m L N;
    rewrite moveBaseToGERange_loop_eq;
    unfold bind, baseValue, baseNextRange, baseErr; cbv zeta.
  all: unfold seek_ge_range, Value.
  all: destruct (cur (base m)) as [[r ov]|] eqn:C; simpl.
  all: try (destruct (is_ge (bytes.Compare (MaxKey r) key)) eqn:R; simpl;
            [ split; [exists (base m); now rewrite set_base_same|];
              split; [reflexivity|]; exists ov; repeat split; auto;
              apply NoDup_next_differs; unfold ranges_of in N;
              now rewrite C in N | ]).
  all: pose proof (NoDup_ranges_NextRange (base m) N) as N'.
  all: revert L N'; unfold NextRange; simpl;
    destruct (later (base m)) as [|[r2 vs2] l] eqn:LT; simpl; intros L N'.
  all: try (unfold retErr, Err; simpl; destruct (fault (base m)); simpl;
            [reflexivity | split; [eexists; reflexivity | auto]]).
  all: try lia.
  all: specialize (IH key (set_base
         {| cur := Some (r2, None); pending := vs2; later := l;
            fault := fault (base m); err := err (base m) |} m)).
  all: simpl in IH; specialize (IH ltac:(lia) (N' eq_refl)).
  all: unfold seek_ge_range in IH; simpl in IH.
  all: eapply post_weaken; [exact IH | | ]; cbv beta.
  all: try (intros v m' [[b ->] H]; split; [now exists b | exact H]).
  all: intros e m' H; exact H.
Qed.

Lemma moveBaseToGERange_spec key m :
  NoDup (map ID (ranges_of (base m))) ->
  post (moveBaseToGERange key m)
       (fun v m' =>
          (exists b, m' = set_base b m)
          /\ match seek_ge_range key (base m) with
             | Some (r, vs) => v = Some r /\ positioned (base m') r vs
             | None => v = None /\ cur (base m') = None
                       /\ pending (base m') = [] /\ later (base m') = []
             end)
       (fun _ _ => seek_ge_key key (base m) = None).
Proof.
  intros N. unfold moveBaseToGERange.
  eapply post_weaken;
    [apply moveBaseToGERange_loop_spec; [reflexivity | exact N] | auto |].
  intros e m' H. unfold seek_ge_key. now rewrite H.
Qed.

(** At the header of a range with another id than [r], the scan for a key in
    [r] gives up. *)
Lemma moveBaseToGEKey_loop_gives_up fuel key r r2 m :
  cur (base m) = Some (r2, None) -> ID r2 <> ID r ->
  post (moveBaseToGEKey_loop fuel key (Some r) m)
       (fun v _ => v = None) (fun _ _ => True).
Proof.
  intros C D. rewrite moveBaseToGEKey_loop_eq.
  unfold bind, baseValue, baseNext, baseErr, Value; cbv zeta.
  rewrite C; simpl.
  destruct (fst (Next (base m))); simpl.
  - apply String.eqb_neq in D. rewrite D. simpl.
    unfold retErr. destruct (Err _); simpl; auto.
  - unfold retErr. destruct (Err _); simpl; auto.
Qed.

(** Past the end of the base, the scan gives up. *)
Lemma moveBaseToGEKey_loop_at_end fuel key br m :
  cur (base m) = None -> later (base m) = [] ->
  post (moveBaseToGEKey_loop fuel key br m)
       (fun v _ => v = None) (fun _ _ => True).
Proof.
  intros C L. rewrite moveBaseToGEKey_loop_eq.
  assert (N : Next (base m)
              = (false, {| cur := None; pending := []; later := [];
                           fault := fault (base m); err := fault (base m) |}))
    by (unfold Next, NextRange; now rewrite C, L).
  unfold bind, baseValue, baseNext, baseErr, Value; cbv beta iota zeta.
  rewrite C; cbn [fst snd nonnil_and]. rewrite N; simpl.
  unfold retErr, Err; simpl. destruct (fault (base m)); simpl; auto.
Qed.

(** Inside range [r], the scan returns the first record with key at least
    [key] among those of [r] from the cursor on. *)
Lemma moveBaseToGEKey_loop_spec fuel : forall key r vs m,
  ahead (base m) <= fuel ->
  positioned (base m) r vs ->
  post (moveBaseToGEKey_loop fuel key (Some r) m)
       (fun v _ => v = find (fun v => is_le (bytes.Compare key (Key v))) vs)
       (fun _ _ => find (fun v => is_le (bytes.Compare key (Key v))) vs = None).
Proof.
  induction fuel as [|n IH]; intros key r vs m L (ov & C & -> & D);
    rewrite moveBaseToGEKey_loop_eq;
    unfold bind, baseValue, baseNext, baseErr, Value; cbv zeta;
    rewrite C; cbn [fst snd].
  all: assert (F : nonnil_and ov (fun v => is_le (bytes.Compare key (Key v))) = false ->
                   find (fun v => is_le (bytes.Compare key (Key v)))
                        (from_cursor ov (pending (base m)))
                   = find (fun v => is_le (bytes.Compare key (Key v)))
                          (pending (base m)))
    by (destruct ov as [v|]; simpl; [intros ->|]; reflexivity).
  all: destruct (nonnil_and ov _) eqn:T;
    [ destruct ov as [v|]; simpl in *; [now rewrite T | discriminate] | ].
  all: rewrite (F eq_refl); clear F.
  all: pose proof (Next_ahead (base m)) as NA.
  all: revert NA; unfold Next; rewrite C.
  all: destruct (pending (base m)) as [|v' vs'] eqn:P; simpl.
  all: try (unfold NextRange; destruct (later (base m)) as [|[r2 vs2] l] eqn:LT;
            simpl; intros NA;
            [ unfold retErr, Err; simpl; destruct (fault (base m)); simpl; reflexivity
            | rewrite String.eqb_refl; simpl ]).
  all: try (rewrite String.eqb_refl; simpl; intros NA).
  - lia.
  - lia.
  - eapply post_weaken;
      [ apply (moveBaseToGEKey_loop_gives_up n key r r2); [reflexivity | exact D]
      | auto | intros; reflexivity ].
  - eapply post_weaken; [apply (IH key r (v' :: vs')) | auto | auto].
    + simpl. lia.
    + exists (Some v'). simpl. repeat split. exact D.
Qed.

(** C8. The base lookup for a key never crosses a range boundary.  For a base
    whose cursor lies within the bounds of its range and whose ranges have
    distinct ids, [moveBaseToGEKey] returns exactly what [seek_ge_key] names:
    with the base positioned at the first range whose [MaxKey] is at least the
    key, the first record of that same range with a key at least the given
    one, and absent when that range has no such record (also when a later
    range has one) or when there is no such range.  When the lookup fails with
    an I/O error of the base, there was no such record either. *)
Theorem moveBaseToGEKey_stays_in_range :
  forall (key : KeyT) (m : merger),
    cursor_in_range (base m) ->
    NoDup (map ID (ranges_of (base m))) ->
    match moveBaseToGEKey key m with
    | Ok v _ => v = seek_ge_key key (base m)
    | Error _ _ => seek_ge_key key (base m) = None
    | OutOfFuel => False
    end.
Proof.
  intros key m IR N.
  change (post (moveBaseToGEKey key m)
               (fun v _ => v = seek_ge_key key (base m))
               (fun _ _ => seek_ge_key key (base m) = None)).
  unfold moveBaseToGEKey, bind at 1, baseValue. cbv zeta.
  unfold Value.
  destruct (cur (base m)) as [[r ov]|] eqn:C; cbn [fst snd].
  - destruct (nonnil_and ov _) eqn:T.
    + destruct ov as [v|]; simpl in T; [|discriminate].
      simpl. unfold seek_ge_key, seek_ge_range. rewrite C.
      unfold cursor_in_range in IR. rewrite C in IR.
      rewrite le_is_ge
        by (eapply le_trans; [apply is_le_true; exact T | exact IR]).
      simpl. now rewrite T.
    + eapply post_bind;
        [apply moveBaseToGERange_spec; exact N | ].
      intros v m1 [[b ->] H]. cbv beta. unfold seek_ge_key.
      destruct (seek_ge_range key (base m)) as [[r1 vs]|].
      * destruct H as [-> H].
        now apply moveBaseToGEKey_loop_spec.
      * destruct H as (-> & C1 & P1 & L1).
        eapply post_weaken;
          [apply moveBaseToGEKey_loop_at_end; assumption | auto | auto].
  - simpl.
    eapply post_bind;
      [apply moveBaseToGERange_spec; exact N | ].
    intros v m1 [[b ->] H]. cbv beta. unfold seek_ge_key.
    destruct (seek_ge_range key (base m)) as [[r1 vs]|].
    + destruct H as [-> H].
      now apply moveBaseToGEKey_loop_spec.
    + destruct H as (-> & C1 & P1 & L1).
      eapply post_weaken;
        [apply moveBaseToGEKey_loop_at_end; assumption | auto | auto].
Qed.

Lemma moveBaseToGEKey_stays_in_range_witness :
  match moveBaseToGEKey (bytes.of_string "c")
          {| ctx := background; writer := newWriter;
             base := {| cur := Some (rng "B1" "a" "c", None);
                        pending := [rec "a" "1"; rec "b" "2"];
                        later := [(rng "B2" "e" "f", [rec "e" "5"])];
                        fault := None; err := None |};
             source := atEnd; dest := atEnd;
             haveSource := false; haveDest := false |}
  with
  | Ok v _ =>
      v = seek_ge_key (bytes.of_string "c")
            {| cur := Some (rng "B1" "a" "c", None);
               pending := [rec "a" "1"; rec "b" "2"];
               later := [(rng "B2" "e" "f", [rec "e" "5"])];
               fault := None; err := None |}
  | Error _ _ =>
      seek_ge_key (bytes.of_string "c")
        {| cur := Some (rng "B1" "a" "c", None);
           pending := [rec "a" "1"; rec "b" "2"];
           later := [(rng "B2" "e" "f", [rec "e" "5"])];
           fault := None; err := None |} = None
  | OutOfFuel => False
  end.
Proof.
  apply (moveBaseToGEKey_stays_in_range (bytes.of_string "c")
           {| ctx := background; writer := newWriter;
              base := {| cur := Some (rng "B1" "a" "c", None);
                         pending := [rec "a" "1"; rec "b" "2"];
                         later := [(rng "B2" "e" "f", [rec "e" "5"])];
                         fault := None; err := None |};
              source := atEnd; dest := atEnd;
              haveSource := false; haveDest := false |}).
  - exact I.
  - simpl. constructor; [|constructor; [|constructor]].
    + intros [E|[]]. discriminate E.
    + intros [].
Defined.

(** The lookup does not reach into the next range: the first record at or
    after "c" is "e", in range B2, and the lookup over B1 answers absent. *)
Example moveBaseToGEKey_absent_across_boundary :
  match moveBaseToGEKey (bytes.of_string "c")
          {| ctx := background; writer := newWriter;
             base := {| cur := Some (rng "B1" "a" "c", None);
                        pending := [rec "a" "1"; rec "b" "2"];
                        later := [(rng "B2" "e" "f", [rec "e" "5"])];
                        fault := None; err := None |};
             source := atEnd; dest := atEnd;
             haveSource := false; haveDest := false |}
  with
  | Ok v _ => v = None
  | _ => False
  end.
Proof. vm_compute. reflexivity. Qed.

(* ================================================================== *)
(** * Single steps of the merge *)
(* ================================================================== *)





(* ================================================================== *)
(** * Conflicts *)
(* ================================================================== *)

(** A handler that fails has written nothing and moved neither side. *)

Ltac leaf :=
  unfold bind, sourceNext, sourceNextRange, destNext, destNextRange, throw, ret;
  simpl; first [exact I | apply quiet_base].










(* ================================================================== *)
(** * Where the code departs from the specification *)
(* ================================================================== *)

(** C1.  Dest range D lies before source range S and the base is empty: dest
    added D.  The merge drops D (only S is written), although the mirrored
    input, with the two sides exchanged, writes both ranges. *)
Theorem dest_range_before_source_dropped :
  outcome (run [] [(rng "S" "c" "c", [rec "c" "3"])]
               [(rng "D" "a" "a", [rec "a" "1"])])
  = Some (None, [WRange (rng "S" "c" "c")])
  /\ outcome (run [] [(rng "D" "a" "a", [rec "a" "1"])]
                  [(rng "S" "c" "c", [rec "c" "3"])])
     = Some (None, [WRange (rng "D" "a" "a"); WRange (rng "S" "c" "c")]).
Proof. split; vm_compute; reflexivity. Qed.

(** C2.  Source at the header of S2 = ["c".."c"], dest on record "b" that the
    base holds with the same identity (source deleted it).  The step writes
    nothing, but it moves source (into S2) and leaves dest on "b". *)
Theorem orphan_dest_record_advances_source :
  match reached 2 orphanBase orphanSource orphanDest with
  | Some m =>
      Value (source m) = (None, Some (rng "S2" "c" "c"))
      /\ Value (dest m) = (Some (rec "b" "2"), Some (rng "D" "a" "d"))
      /\ match dispatch m with
         | Ok _ m' =>
             written (writer m') = written (writer m)
             /\ dest m' = dest m
             /\ Value (source m') = (Some (rec "c" "3"), Some (rng "S2" "c" "c"))
         | _ => False
         end
  | None => False
  end.
Proof. vm_compute. repeat split; reflexivity. Qed.

(** C4.  Source and dest hold key "a" under identities 1 and 2; the base has
    no key "a", but its next record "b" has identity 1.  The merge reports no
    conflict and writes the record of dest. *)
Theorem same_key_without_ancestor_not_flagged :
  outcome (run [(rng "B" "b" "b", [rec "b" "1"])]
               [(rng "S" "a" "a", [rec "a" "1"])]
               [(rng "D" "a" "a", [rec "a" "2"])])
  = Some (None, [WRecord (rec "a" "2")]).
Proof. vm_compute. reflexivity. Qed.

(** C9.  Dest ends while source stands on record "a" (identity 1), which the
    base does not hold; the base's next record "b" has identity 1.  The tail
    phase skips "a": the output lacks a key that only source added. *)
Theorem drain_skips_added_record :
  outcome (run [(rng "B" "b" "b", [rec "b" "1"])]
               [(rng "S" "a" "c", [rec "a" "1"; rec "c" "3"])]
               [(rng "D" "A" "A", [rec "A" "7"])])
  = Some (None, [WRecord (rec "A" "7"); WRecord (rec "c" "3")]).
Proof. vm_compute. reflexivity. Qed.

(* ================================================================== *)
(** * Further properties of the base lookups *)
(* ================================================================== *)

Lemma le_is_le a b : bytes.le a b -> is_le (bytes.Compare a b) = true.
Proof. unfold bytes.le. destruct (bytes.Compare a b); simpl; congruence. Qed.

Lemma NextRange_ahead_le it : ahead (snd (NextRange it)) <= ahead it.
Proof. apply (moved_ahead_le Skip true). Qed.

Lemma Next_ahead_le it : ahead (snd (Next it)) <= ahead it.
Proof. apply (moved_ahead_le Descend true). Qed.

(** [moveBaseToGERange]: what it returns and where it leaves the base. *)
Lemma moveBaseToGERange_loop_lands fuel : forall key m,
  List.length (later (base m)) <= fuel ->
  post (moveBaseToGERange_loop fuel key m)
       (fun v m' =>
          (exists b, m' = set_base b m)
          /\ ahead (base m') <= ahead (base m)
          /\ v = option_map fst (seek_ge_range key (base m))
          /\ match v with
             | Some r => (exists ov, cur (base m') = Some (r, ov))
                         /\ is_ge (bytes.Compare (MaxKey r) key) = true
             | None => cur (base m') = None /\ later (base m') = []
             end)
       (fun e m' =>
          (exists b, m' = set_base b m)
          /\ ahead (base m') <= ahead (base m)
          /\ (exists s, e = IOError s)
          /\ seek_ge_range key (base m) = None).
Proof.
  induction fuel as [|n IH]; intros key m L;
    rewrite moveBaseToGERange_loop_eq;
    unfold bind, baseValue, baseNextRange, baseErr; cbv zeta.
  all: unfold seek_ge_range, Value.
  all: destruct (cur (base m)) as [[r ov]|] eqn:C; simpl.
  all: try (destruct (is_ge (bytes.Compare (MaxKey r) key)) eqn:R; simpl;
            [ split; [exists (base m); now rewrite set_base_same|];
              split; [lia|]; split; [reflexivity|];
              split; [now exists ov | exact R] | ]).
  all: pose proof (NextRange_ahead_le (base m)) as AL.
  all: revert L AL; unfold NextRange; simpl;
    destruct (later (base m)) as [|[r2 vs2] l] eqn:LT; simpl; intros L AL.
  all: try solve [unfold retErr, Err; simpl; destruct (fault (base m)); simpl;
                  repeat split; eauto].
  all: try lia.
  all: specialize (IH key (set_base
         {| cur := Some (r2, None); pending := vs2; later := l;
            fault := fault (base m); err := err (base m) |} m)).
  all: simpl in IH; specialize (IH ltac:(lia)).
  all: unfold seek_ge_range in IH; simpl in IH.
  all: eapply post_weaken; [exact IH | | ]; cbv beta.
  all: try (intros v m' ([b ->] & A & H); split; [now exists b|];
            split; [simpl in *; lia | exact H]).
  all: intros e m' ([b ->] & A & H); split; [now exists b|];
    split; [simpl in *; lia | exact H].
Qed.

Lemma only_base_forward_trans m b m' :
  ahead b <= ahead (base m) ->
  only_base_forward (set_base b m) m' -> only_base_forward m m'.
Proof.
  intros L [[b' ->] A]. split; [now exists b' | simpl in *; lia].
Qed.

Lemma only_base_forward_refl m : only_base_forward m m.
Proof. split; [exists (base m); now rewrite set_base_same | lia]. Qed.

Lemma retErr_lands {A} (R : A -> merger -> Prop) m b' :
  ahead b' <= ahead (base m) ->
  post (retErr None (Err (base (set_base b' m))) (set_base b' m))
       (fun v m' => only_base_forward m m' /\ forall x, v = Some x -> R x m')
       (fun e m' => only_base_forward m m' /\ exists s, e = IOError s).
Proof.
  intros L. unfold retErr, Err. simpl. destruct (err b'); simpl.
  - split; [split; [eexists; reflexivity | exact L] | eexists; reflexivity].
  - split; [split; [eexists; reflexivity | exact L] | intros x [=]].
Qed.

(** [moveBaseToGEKey]'s scan: a record it returns is the one the base is left
    on, and it fails only with the base's I/O error. *)
Lemma moveBaseToGEKey_loop_lands fuel : forall key br m,
  ahead (base m) <= fuel ->
  scannable (base m) br ->
  post (moveBaseToGEKey_loop fuel key br m)
       (fun v m' =>
          only_base_forward m m'
          /\ forall x, v = Some x ->
               (exists r, cur (base m') = Some (r, Some x))
               /\ is_le (bytes.Compare key (Key x)) = true)
       (fun e m' => only_base_forward m m' /\ exists s, e = IOError s).
Proof.
  induction fuel as [|n IH]; intros key br m L S;
    rewrite moveBaseToGEKey_loop_eq;
    unfold bind, baseValue, baseNext, baseErr, Value; cbv zeta.
  all: pose proof (Next_ahead (base m)) as NA.
  all: pose proof (Next_ahead_le (base m)) as NL.
  all: pose proof (Next_cur (base m)) as NC.
  all: assert (NE : cur (base m) = None -> later (base m) = [] ->
                    fst (Next (base m)) = false)
    by (unfold Next, NextRange; intros -> ->; reflexivity).
  all: unfold scannable in S.
  all: destruct (cur (base m)) as [[r ov]|] eqn:C; cbn [fst snd nonnil_and].
  all: try (rewrite (NE eq_refl S); cbn [negb]; apply retErr_lands; exact NL).
  all: destruct (nonnil_and ov _) eqn:T;
    [ destruct ov as [v|]; simpl in T; [|discriminate];
      simpl; split; [apply only_base_forward_refl|];
      intros x [= <-]; split; [now exists r | exact T] | ].
  all: destruct br as [br|]; [|contradiction].
  all: cbv beta.
  all: destruct (fst (Next (base m))) eqn:N; cbn [negb];
    [|apply retErr_lands; exact NL].
  all: unfold deref, ret; cbv beta iota.
  all: destruct (String.eqb (ID r) (ID br)); cbn [negb];
    [|apply retErr_lands; exact NL].
  - lia.
  - eapply post_weaken; [apply IH | |]; cbv beta.
    + simpl. lia.
    + simpl. unfold scannable. destruct NC as [p ->]. exact I.
    + intros v m' [F H]. split; [|exact H].
      eapply only_base_forward_trans; [|exact F]. exact NL.
    + intros e m' [F H]. split; [|exact H].
      eapply only_base_forward_trans; [|exact F]. exact NL.
Qed.

Lemma moveBaseToGERange_lands key m :
  post (moveBaseToGERange key m)
       (fun v m' =>
          only_base_forward m m'
          /\ v = option_map fst (seek_ge_range key (base m))
          /\ match v with
             | Some r => (exists ov, cur (base m') = Some (r, ov))
                         /\ is_ge (bytes.Compare (MaxKey r) key) = true
             | None => cur (base m') = None /\ later (base m') = []
             end)
       (fun e m' => only_base_forward m m' /\ exists s, e = IOError s).
Proof.
  unfold moveBaseToGERange.
  eapply post_weaken; [apply moveBaseToGERange_loop_lands; reflexivity | |];
    cbv beta.
  - intros v m' (F & A & H). split; [split; assumption | exact H].
  - intros e m' (F & A & H & _). split; [split; assumption | exact H].
Qed.

Lemma moveBaseToGEKey_lands key m :
  post (moveBaseToGEKey key m)
       (fun v m' =>
          only_base_forward m m'
          /\ forall x, v = Some x ->
               (exists r, cur (base m') = Some (r, Some x))
               /\ is_le (bytes.Compare key (Key x)) = true)
       (fun e m' => only_base_forward m m' /\ exists s, e = IOError s).
Proof.
  unfold moveBaseToGEKey, bind at 1, baseValue. cbv zeta. unfold Value.
  destruct (cur (base m)) as [[r ov]|] eqn:C; cbn [fst snd nonnil_and].
  1: destruct (nonnil_and ov _) eqn:T;
    [ destruct ov as [v|]; simpl in T; [|discriminate];
      simpl; split; [apply only_base_forward_refl|];
      intros x [= <-]; split; [now exists r | exact T] | ].
  all: eapply post_bind; [apply moveBaseToGERange_lands | cbv beta].
  all: intros v m1 ([[b ->] A] & _ & H).
  all: eapply post_weaken;
    [ apply moveBaseToGEKey_loop_lands; [reflexivity|] | |]; cbv beta.
  all: try (unfold scannable; simpl in *;
            destruct v as [rv|];
            [ destruct H as [[ov' ->] _]; exact I
            | destruct H as [-> L]; exact L ]).
  all: try (intros v' m' [F H']; split; [|exact H'];
            eapply only_base_forward_trans; [|exact F]; exact A).
  all: intros e m' [F H']; split; [|exact H'];
    eapply only_base_forward_trans; [|exact F]; exact A.
Qed.

(** X1. The two base lookups always return, move nothing but the base cursor,
    never move it backwards (the positions ahead of it never grow), and fail
    only with the I/O error the base iterator reports. *)
Theorem base_lookups_move_only_the_base :
  forall (key : KeyT) (m : merger),
    match moveBaseToGERange key m with
    | Ok _ m' => only_base_forward m m'
    | Error e m' => only_base_forward m m' /\ exists s, e = IOError s
    | OutOfFuel => False
    end
    /\ match moveBaseToGEKey key m with
       | Ok _ m' => only_base_forward m m'
       | Error e m' => only_base_forward m m' /\ exists s, e = IOError s
       | OutOfFuel => False
       end.
Proof.
  intros key m. split.
  - pose proof (moveBaseToGERange_lands key m) as H.
    destruct (moveBaseToGERange key m); simpl in H; intuition.
  - pose proof (moveBaseToGEKey_lands key m) as H.
    destruct (moveBaseToGEKey key m); simpl in H; intuition.
Qed.

(** X2. [moveBaseToGERange] returns the first range, from the cursor on, whose
    [MaxKey] is at least the key, and leaves the base in that range; when
    there is none it returns nil (or the base's I/O error) with the base past
    its end. *)
Theorem moveBaseToGERange_finds_first_range :
  forall (key : KeyT) (m : merger),
    match moveBaseToGERange key m with
    | Ok v m' =>
        v = option_map fst (seek_ge_range key (base m))
        /\ match v with
           | Some r => exists ov, cur (base m') = Some (r, ov)
           | None => cur (base m') = None /\ later (base m') = []
           end
    | Error _ _ => seek_ge_range key (base m) = None
    | OutOfFuel => False
    end.
Proof.
  intros key m.
  pose proof (moveBaseToGERange_loop_lands
                (List.length (later (base m))) key m (le_n _)) as H.
  unfold moveBaseToGERange.
  destruct (moveBaseToGERange_loop _ key m) as [v m'|e m'|]; simpl in H.
  - destruct H as (_ & _ & E & H). split; [exact E|].
    destruct v; intuition.
  - intuition.
  - exact H.
Qed.

(** X3. The answers of the lookups are stable: once [moveBaseToGEKey] has
    returned a record, a lookup of any key up to that record's key returns the
    same record and leaves the merger as it is; once [moveBaseToGERange] has
    returned a range, a lookup of any key up to its [MaxKey] returns the same
    range and leaves the merger as it is. *)
Theorem lookups_are_stable :
  forall (key key' : KeyT) (m m' : merger),
    (forall v, moveBaseToGEKey key m = Ok (Some v) m' ->
               bytes.le key' (Key v) ->
               moveBaseToGEKey key' m' = Ok (Some v) m')
    /\ (forall r, moveBaseToGERange key m = Ok (Some r) m' ->
                  bytes.le key' (MaxKey r) ->
                  moveBaseToGERange key' m' = Ok (Some r) m').
Proof.
  intros key key' m m'. split.
  - intros v E L. pose proof (moveBaseToGEKey_lands key m) as H.
    rewrite E in H. simpl in H. destruct H as [_ H].
    destruct (H v eq_refl) as [[r C] _].
    unfold moveBaseToGEKey, bind, baseValue, Value. rewrite C. simpl.
    now rewrite (le_is_le _ _ L).
  - intros r E L. pose proof (moveBaseToGERange_lands key m) as H.
    rewrite E in H. simpl in H. destruct H as (_ & _ & [ov C] & _).
    unfold moveBaseToGERange. rewrite moveBaseToGERange_loop_eq.
    unfold bind, baseValue, Value. rewrite C. simpl.
    now rewrite (le_is_ge _ _ L).
Qed.

Lemma lookups_are_stable_witness :
  moveBaseToGEKey (bytes.of_string "a")
    (set_base {| cur := Some (rng "B1" "a" "c", Some (rec "c" "2"));
                 pending := [];
                 later := [(rng "B2" "e" "f", [rec "e" "5"])];
                 fault := None; err := None |} twoRangeBase)
  = Ok (Some (rec "c" "2"))
       (set_base {| cur := Some (rng "B1" "a" "c", Some (rec "c" "2"));
                    pending := [];
                    later := [(rng "B2" "e" "f", [rec "e" "5"])];
                    fault := None; err := None |} twoRangeBase)
  /\ moveBaseToGERange (bytes.of_string "b") twoRangeBase
     = Ok (Some (rng "B1" "a" "c")) twoRangeBase.
Proof.
  destruct (lookups_are_stable
              (bytes.of_string "b") (bytes.of_string "a") twoRangeBase
              (set_base {| cur := Some (rng "B1" "a" "c", Some (rec "c" "2"));
                           pending := [];
                           later := [(rng "B2" "e" "f", [rec "e" "5"])];
                           fault := None; err := None |} twoRangeBase))
    as [K _].
  destruct (lookups_are_stable
              (bytes.of_string "a") (bytes.of_string "b")
              twoRangeBase twoRangeBase) as [_ R].
  split.
  - apply K; [vm_compute; reflexivity | unfold bytes.le; simpl; discriminate].
  - apply R; [vm_compute; reflexivity | unfold bytes.le; simpl; discriminate].
Defined.

(* ================================================================== *)
(** * Edge cases of the whole merge *)
(* ================================================================== *)

(** X4. With nothing in source and nothing in dest the merge returns nil and
    leaves the writer untouched, whatever the base: no handler runs, so the
    context is never polled (a cancelled context goes unnoticed) and the
    errors of the iterators are never read (a source or dest whose first
    [Next] fails is taken for an empty one). *)
Theorem merge_of_nothing_returns_nil :
  forall (c : Context) (w : MetaRangeWriter) (b : Iterator)
         (fs fd : option string),
    exists m',
      Merge c w b (NewIterator [] fs) (NewIterator [] fd) = Ok tt m'
      /\ writer m' = w /\ ctx m' = c.
Proof.
  intros. eexists. split; [reflexivity | split; reflexivity].
Qed.

(** X5. When the context is already done at the call and source or dest has
    a range, the merge returns [Canceled] before anything is written. *)
Theorem merge_cancelled_at_the_call :
  forall (w : MetaRangeWriter) (b : Iterator)
         (s d : list (Range * list ValueRecord)) (fs fd : option string),
    s <> [] \/ d <> [] ->
    exists m',
      Merge (Some 0) w b (NewIterator s fs) (NewIterator d fd)
      = Error Canceled m'
      /\ writer m' = w.
Proof.
  intros w b s d fs fd H.
  destruct s as [|[rs vs] s], d as [|[rd vd] d];
    try (destruct H as [H|H]; congruence).
  - unfold Merge, merge, bind, prime, bind, sourceNext, destNext, baseNext, ret.
    simpl. unfold handleAll. rewrite handleAll_loop_eq.
    unfold bind, checkDone. simpl. eexists. split; reflexivity.
  - unfold Merge, merge, bind, prime, bind, sourceNext, destNext, baseNext, ret.
    simpl. unfold handleAll. rewrite handleAll_loop_eq.
    unfold bind, checkDone. simpl. eexists. split; reflexivity.
  - unfold Merge, merge, bind, prime, bind, sourceNext, destNext, baseNext, ret.
    simpl. unfold bind, iteration, bind, checkDone. simpl.
    eexists. split; reflexivity.
Qed.

Lemma merge_cancelled_at_the_call_witness :
  exists m',
    Merge (Some 0) newWriter (NewIterator [] None)
          (NewIterator [(rng "S" "a" "a", [rec "a" "1"])] None)
          (NewIterator [] None)
    = Error Canceled m'
    /\ writer m' = newWriter.
Proof.
  apply (merge_cancelled_at_the_call newWriter (NewIterator [] None)
           [(rng "S" "a" "a", [rec "a" "1"])] [] None None).
  left. discriminate.
Defined.

(* ================================================================== *)
(** * The shape of a pass, for any merger *)
(* ================================================================== *)

Ltac shaped m :=
  as_after m; unfold stepped; do 5 eexists;
  split; [reflexivity|];
  split; [first [left; discriminate | right; discriminate]|];
  first [left; reflexivity | right; eexists; eassumption].

Lemma handleBothKeys_shape sv dv m :
  post (handleBothKeys sv dv m) (stepped m) (undone m).
Proof.
  unfold handleBothKeys, undone.
  destruct (bytes.Compare (Key sv) (Key dv)); lookup.
  - destruct (negb _); [destruct a as [bv|]|].
    + destruct (bytes.Equal (Identity sv) (Identity bv));
        [|destruct (bytes.Equal (Identity dv) (Identity bv))].
      * write. shaped m.
      * write. shaped m.
      * leaf.
    + leaf.
    + write. shaped m.
  - destruct (nonnil_and _ _); [|destruct (nonnil_and _ _)].
    + shaped m.
    + leaf.
    + write. shaped m.
  - destruct (nonnil_and _ _); [|destruct (nonnil_and _ _)].
    + shaped m.
    + leaf.
    + write. shaped m.
Qed.

Lemma handleDestRangeSourceKey_shape dr sv m :
  post (handleDestRangeSourceKey dr sv m) (stepped m) (undone m).
Proof.
  unfold handleDestRangeSourceKey, undone.
  destruct (is_gt _).
  - lookup. destruct (nonnil_and _ _); [|destruct (nonnil_and _ _)].
    + shaped m.
    + leaf.
    + write. shaped m.
  - destruct (is_lt _); lookup; destruct a; shaped m.
Qed.

Lemma handleSourceRangeDestKey_shape sr dv m :
  post (handleSourceRangeDestKey sr dv m) (stepped m) (undone m).
Proof.
  unfold handleSourceRangeDestKey, undone.
  destruct (is_gt _).
  - lookup. destruct (nonnil_and _ _); [|destruct (nonnil_and _ _)].
    + shaped m.
    + leaf.
    + write. shaped m.
  - destruct (is_lt _); lookup; destruct a; shaped m.
Qed.

Lemma handleBothRanges_shape sr dr m :
  post (handleBothRanges sr dr m) (stepped m) (undone m).
Proof.
  unfold handleBothRanges, undone.
  destruct (String.eqb _ _).
  { rewrite <- (set_base_same m) at 1. write. shaped m. }
  destruct (is_lt _).
  { lookup. destruct (nonnil_and _ _); [|destruct (nil_or _ _)].
    - shaped m.
    - write. shaped m.
    - shaped m. }
  destruct (is_lt _).
  { lookup. destruct (nonnil_and _ _); [|destruct (nil_or _ _)].
    - write. shaped m.
    - shaped m.
    - shaped m. }
  destruct (_ && _).
  - lookup. destruct (nonnil_and _ _); [destruct (nonnil_and _ _)|].
    + write. shaped m.
    + write. shaped m.
    + shaped m.
  - rewrite <- (set_base_same m) at 1. shaped m.
Qed.

Lemma dispatch_shape m :
  post (dispatch m) (stepped m) (undone m).
Proof.
  unfold dispatch, bind, iterValue, iter.
  destruct (Value (source m)) as [[sv|] [sr|]],
           (Value (dest m)) as [[dv|] [dr|]]; simpl;
    try (repeat split; reflexivity);
    auto using handleBothKeys_shape, handleDestRangeSourceKey_shape,
      handleSourceRangeDestKey_shape, handleBothRanges_shape.
Qed.

Lemma iteration_shape m :
  post (iteration m)
       (fun _ m' => stepped m tt m'
                    /\ err (source m') = None /\ err (dest m') = None)
       (fun e m' => quiet m m'
                    \/ (stepped m tt m' /\ exists s, e = IOError s)).
Proof.
  unfold iteration, bind at 1, checkDone.
  destruct (fst (Done (ctx m))); [left; repeat split|].
  unfold bind at 1.
  pose proof (dispatch_shape (set_ctx (snd (Done (ctx m))) m)) as D.
  destruct (dispatch _) as [[] m1|e m1|]; simpl in D; [| |contradiction].
  - unfold bind, iterErr, baseErr, iter, Err, retErr, throw, ret.
    destruct (err (source m1)) eqn:ES; simpl; [right; eauto|].
    destruct (err (dest m1)) eqn:ED; simpl; [right; eauto|].
    destruct (err (base m1)); simpl; [right; eauto|].
    auto.
  - left. exact D.
Qed.

Lemma stepped_progress m m' :
  haveSource m = true -> haveDest m = true ->
  stepped m tt m' -> progress m m'.
Proof.
  intros HS HD (c & w & b & aS & aD & -> & M & _).
  now apply progress_after.
Qed.

(** A rule for the main loop: what every returning pass keeps, the loop
    returns with; what every failing pass leaves, the loop fails with. *)
Lemma merge_loop_rule (I E : merger -> Prop) :
  (forall m m', I m -> haveSource m = true -> haveDest m = true ->
                stepped m tt m' ->
                err (source m') = None -> err (dest m') = None -> I m') ->
  (forall m m', I m -> quiet m m' \/ stepped m tt m' -> E m') ->
  forall fuel m,
    I m -> ahead (source m) + ahead (dest m) < fuel ->
    post (merge_loop fuel m)
         (fun _ m' => I m' /\ haveSource m' && haveDest m' = false)
         (fun _ m' => E m').
Proof.
  intros KI KE. induction fuel as [|n IH]; intros m Im L; [lia|].
  destruct (haveSource m && haveDest m) eqn:H.
  - simpl. rewrite H. apply andb_true_iff in H as [HS HD].
    eapply post_bind;
      [ eapply post_weaken;
        [ apply iteration_shape
        | intros a m' K; exact K
        | intros e m' [Q|[S1 _]]; apply (KE m m' Im); [left|right]; assumption ]
      | cbv beta ].
    intros _ m1 (S1 & ES & ED).
    destruct (stepped_progress m m1 HS HD S1) as [P|P].
    + rewrite merge_loop_done by assumption. simpl. split; eauto.
    + apply IH; [eauto | lia].
  - rewrite merge_loop_done by assumption. simpl. auto.
Qed.

(* ================================================================== *)
(** * The tail phase, for any merger *)
(* ================================================================== *)

Lemma NextRange_false_end it :
  fst (NextRange it) = false -> snd (NextRange it) = endOf it.
Proof.
  unfold NextRange. destruct (later it) as [|[r vs] l]; simpl;
    [reflexivity | discriminate].
Qed.

Lemma Next_false_end it : fst (Next it) = false -> snd (Next it) = endOf it.
Proof.
  unfold Next. destruct (cur it) as [[r ov]|]; [destruct (pending it)|];
    simpl; try discriminate; apply NextRange_false_end.
Qed.

Lemma NextRange_fault it : fault (snd (NextRange it)) = fault it.
Proof. unfold NextRange. now destruct (later it) as [|[r vs] l]. Qed.

Lemma Next_fault it : fault (snd (Next it)) = fault it.
Proof.
  unfold Next. destruct (cur it) as [[r ov]|]; [destruct (pending it)|];
    simpl; auto using NextRange_fault.
Qed.

Lemma NextRange_true_err it :
  fst (NextRange it) = true -> err (snd (NextRange it)) = err it.
Proof.
  unfold NextRange. destruct (later it) as [|[r vs] l]; simpl;
    [discriminate | reflexivity].
Qed.

Lemma Next_true_err it : fst (Next it) = true -> err (snd (Next it)) = err it.
Proof.
  unfold Next. destruct (cur it) as [[r ov]|]; [destruct (pending it)|];
    simpl; auto using NextRange_true_err.
Qed.

Lemma extends_refl log : extends log log.
Proof. now exists []. Qed.

Lemma extends_trans a b c : extends a b -> extends b c -> extends a c.
Proof. intros [l ->] [l' ->]. exists (l' ++ l). now rewrite app_assoc. Qed.

Lemma one_more_extends a b : one_more a b -> extends a b.
Proof. intros [->|[k ->]]; [apply extends_refl | now exists [k]]. Qed.

Ltac tail_q :=
  unfold tail_failed; cbn [writer written haveSource haveDest];
  repeat split;
  first [ reflexivity
        | assumption
        | match goal with s : side |- _ => destruct s; reflexivity end
        | apply extends_refl
        | apply one_more_extends; assumption ].

Lemma tail_failed_trans s m m1 e e' m' :
  tail_failed s m e m1 -> tail_failed s m1 e' m' -> tail_failed s m e' m'.
Proof.
  intros (O & HS & HD & X) (O' & HS' & HD' & X').
  repeat split; try congruence. eapply extends_trans; eauto.
Qed.

Lemma iter_set_iter s it m : iter s (set_iter s it m) = it.
Proof. now destruct s. Qed.

Lemma tail_failed_step s m e it c w b :
  one_more (written (writer m)) (written w) ->
  tail_failed s m e (set_iter s it (set_writer w (set_base b (set_ctx c m)))).
Proof.
  intros W. unfold tail_failed.
  repeat split; try (destruct s; reflexivity).
  replace (written (writer (set_iter s it
             (set_writer w (set_base b (set_ctx c m))))))
    with (written w) by (destruct s; reflexivity).
  now apply one_more_extends.
Qed.

Lemma endOf_fault it it' : fault it' = fault it -> endOf it' = endOf it.
Proof. unfold endOf. now intros ->. Qed.

Lemma tail_done_trans s m m1 e m' :
  tail_failed s m e m1 ->
  fault (iter s m1) = fault (iter s m) ->
  tail_done s m1 tt m' -> tail_done s m tt m'.
Proof.
  intros F FE (E & N & T). split; [|split].
  - rewrite E. now apply endOf_fault.
  - congruence.
  - eapply tail_failed_trans; eauto.
Qed.

Lemma handleAll_loop_shape fuel : forall s m,
  ahead (iter s m) <= fuel ->
  post (handleAll_loop fuel s m) (tail_done s m) (tail_failed s m).
Proof.
  induction fuel as [|n IH]; intros s m L; rewrite handleAll_loop_eq.
  all: eapply post_bind with (P1 := fun _ m' => exists c, m' = set_ctx c m);
    [ unfold checkDone; destruct (fst (Done (ctx m))); simpl; eauto; tail_q | ].
  all: intros _ m0 [c ->].
  all: unfold bind at 1, iterValue; cbv zeta.
  all: replace (Value (iter s (set_ctx c m))) with (Value (iter s m))
    by (destruct s; reflexivity).
  all: unfold Value; destruct (cur (iter s m)) as [[r [v|]]|] eqn:C;
    cbn [fst snd deref].
  all: try solve [unfold bind, throw; simpl; tail_q].
  all: try (unfold bind at 1, ret).
  all: eapply post_bind_base;
    [ apply wrap_base;
      first [apply moveBaseToGEKey_post | apply moveBaseToGERange_post]
    | intros; tail_q
    | intros a b; cbv beta ].
  all: eapply post_bind;
    [ eapply post_weaken;
      [ apply maybe_write_post;
        first [ apply writeRecord_post | apply writeRange_post ]
      | intros ? ? H; exact H
      | intros ? ? ->; tail_q ]
    | intros _ m1 (w & -> & Wd) ].
  all: cbn in Wd;
    assert (W1 : one_more (written (writer m)) (written w))
      by (destruct Wd as [E|E]; [left | right; eexists]; exact E);
    clear Wd.
  all: unfold bind, iterNext, iterNextRange, iterErr; cbv beta.
  all: replace (iter s (set_writer w (set_base b (set_ctx c m))))
    with (iter s m) by (destruct s; reflexivity).
  all: pose proof (Next_ahead (iter s m)) as NA.
  all: pose proof (NextRange_ahead (iter s m)) as NRA.
  all: pose proof (Next_false_end (iter s m)) as NE.
  all: pose proof (NextRange_false_end (iter s m)) as NRE.
  all: match goal with
       | |- context [negb (fst ?x)] => destruct (fst x) eqn:T
       end; cbn [negb].
  all: try rewrite T in *.
  all: try solve [simpl; lia].
  all: try solve
    [ rewrite iter_set_iter; unfold retErr, Err;
      first [rewrite (NE eq_refl) | rewrite (NRE eq_refl)];
      change (err (endOf (iter s m))) with (fault (iter s m));
      destruct (fault (iter s m)) eqn:F; cbn [option_map throw ret post];
      [ apply tail_failed_step; exact W1
      | split; [now rewrite iter_set_iter|];
        split; [exact F | apply tail_failed_step; exact W1] ] ].
  all: eapply post_weaken; [apply IH | |]; cbv beta.
  all: try solve [rewrite iter_set_iter; lia].
  all: try solve
    [ intros [] m'; apply tail_done_trans with (e := Canceled);
      [ apply tail_failed_step; exact W1
      | rewrite iter_set_iter; auto using Next_fault, NextRange_fault ] ].
  all: intros e m'; apply tail_failed_trans with (e := Canceled);
    apply tail_failed_step; exact W1.
Qed.

Lemma handleAll_shape s m :
  post (handleAll s m) (tail_done s m) (tail_failed s m).
Proof. unfold handleAll. now apply handleAll_loop_shape. Qed.

(* ================================================================== *)
(** * The whole merge, for any input *)
(* ================================================================== *)

Lemma prime_primed m : prime m = Ok tt (primed m).
Proof. reflexivity. Qed.

Lemma merge_unfold m :
  merge m =
  ((fun m => merge_loop (S (ahead (source m) + ahead (dest m))) m) ;;;
   (fun m => if haveSource m then handleAll Source m else Ok tt m) ;;;
   (fun m => if haveDest m then handleAll Dest m else Ok tt m)) (primed m).
Proof. reflexivity. Qed.

Lemma stepped_log m m' :
  stepped m tt m' -> one_more (written (writer m)) (written (writer m')).
Proof. intros (c & w & b & aS & aD & -> & _ & W). exact W. Qed.

(** X6. The merge always returns, on any input, and only ever adds to what the
    writer holds: at the return, with or without an error, the writer's log is
    the log at the call with the new calls after it. *)
Theorem merge_only_appends :
  forall m : merger,
    match merge m with
    | Ok _ m' => extends (written (writer m)) (written (writer m'))
    | Error _ m' => extends (written (writer m)) (written (writer m'))
    | OutOfFuel => False
    end.
Proof.
  intros m.
  change (post (merge m)
               (fun _ m' => extends (written (writer m)) (written (writer m')))
               (fun _ m' => extends (written (writer m)) (written (writer m')))).
  rewrite merge_unfold.
  set (X := fun m' => extends (written (writer m)) (written (writer m'))).
  eapply post_bind with (P1 := fun _ m' => X m').
  { eapply post_weaken;
      [ apply (merge_loop_rule X X) | intros a m' [H _]; exact H | auto ].
    - intros m1 m2 H _ _ S _ _. unfold X in *.
      eapply extends_trans; [exact H|].
      apply one_more_extends, stepped_log, S.
    - intros m1 m2 H [Q|S]; unfold X in *.
      + destruct Q as (W & _). now rewrite W.
      + eapply extends_trans; [exact H|].
        apply one_more_extends, stepped_log, S.
    - apply extends_refl.
    - lia. }
  intros _ m2 H2. cbv beta.
  eapply post_bind with (P1 := fun _ m' => X m').
  { destruct (haveSource m2); [|exact H2].
    eapply post_weaken; [apply handleAll_shape | |]; cbv beta.
    - intros a m' (_ & _ & _ & _ & _ & E). eapply extends_trans; eauto.
    - intros e m' (_ & _ & _ & E). eapply extends_trans; eauto. }
  intros _ m3 H3. cbv beta.
  destruct (haveDest m3); [|exact H3].
  eapply post_weaken; [apply handleAll_shape | |]; cbv beta.
  - intros a m' (_ & _ & _ & _ & _ & E). eapply extends_trans; eauto.
  - intros e m' (_ & _ & _ & E). eapply extends_trans; eauto.
Qed.

Lemma endOf_exhausted it it' : it = endOf it' -> exhausted it.
Proof. intros ->. repeat split. Qed.

Lemma moved_spent a h it :
  spent h it -> spent (fst (moved a h it)) (snd (moved a h it)).
Proof.
  unfold spent. destruct a; simpl; auto; intros _ F.
  - now rewrite (Next_false_end it F).
  - now rewrite (NextRange_false_end it F).
Qed.

(** X7. A merge that returns nil has read source and dest to their end:
    nothing is left at or ahead of either cursor. *)
Theorem merge_returning_nil_has_consumed_both_sides :
  forall m : merger,
    match merge m with
    | Ok _ m' => exhausted (source m') /\ exhausted (dest m')
    | _ => True
    end.
Proof.
  intros m.
  set (I := fun m' => spent (haveSource m') (source m')
                      /\ spent (haveDest m') (dest m')).
  assert (P : post (merge m)
                (fun _ m' => exhausted (source m') /\ exhausted (dest m'))
                (fun _ _ => True)).
  { rewrite merge_unfold.
    eapply post_bind;
      [ apply (merge_loop_rule I (fun _ => True)); [| auto | | lia] | ].
    - intros m1 m2 [S D] _ _ (c & w & b & aS & aD & -> & _) _ _.
      split; simpl; now apply moved_spent.
    - split; simpl; [apply (moved_spent Descend true) |
                     apply (moved_spent Descend true)]; discriminate.
    - intros _ m2 [[S D] _]. cbv beta.
      eapply post_bind with
        (P1 := fun _ m3 => exhausted (source m3)
                           /\ spent (haveDest m3) (dest m3)).
      + destruct (haveSource m2) eqn:HS.
        * eapply post_weaken; [apply handleAll_shape | | auto]; cbv beta.
          intros _ m3 (E3 & _ & O3 & _ & HD3 & _). simpl in E3, O3.
          split; [eapply endOf_exhausted; eauto|].
          now rewrite HD3, O3.
        * simpl. split; [eapply endOf_exhausted; now apply S | exact D].
      + intros _ m3 [E3 D3]. cbv beta.
        destruct (haveDest m3) eqn:HD.
        * eapply post_weaken; [apply handleAll_shape | | auto]; cbv beta.
          intros _ m4 (E4 & _ & O4 & _). simpl in E4, O4. split.
          -- now rewrite O4.
          -- eapply endOf_exhausted; eauto.
        * simpl. split; [exact E3 | eapply endOf_exhausted; now apply D3]. }
  destruct (merge m); simpl in P; auto.
Qed.

(** X8. An I/O failure at the end of a side that has at least one range is
    never swallowed: with such a source, and likewise with such a dest, the
    merge does not return nil, whatever the rest of the input. *)
Theorem fault_of_a_nonempty_side_is_reported :
  forall (c : Context) (w : MetaRangeWriter) (b other : Iterator)
         (p : Range * list ValueRecord) (l : list (Range * list ValueRecord))
         (f : string),
    (exists e m', Merge c w b (NewIterator (p :: l) (Some f)) other = Error e m')
    /\ (exists e m', Merge c w b other (NewIterator (p :: l) (Some f)) = Error e m').
Proof.
  intros c w b o p l f. split.
  - set (m := {| ctx := c; writer := w; base := b;
                 source := NewIterator (p :: l) (Some f); dest := o;
                 haveSource := false; haveDest := false |}).
    set (I := fun m' => fault (source m') = Some f /\ haveSource m' = true).
    assert (P : post (merge m) (fun _ _ => False) (fun _ _ => True)).
    { rewrite merge_unfold.
      eapply post_bind;
        [ apply (merge_loop_rule I (fun _ => True)); [| auto | | lia] | ].
      - intros m1 m2 [F H] _ _ (c' & w' & b' & aS & aD & -> & _) ES _.
        simpl in *. rewrite H in *. split.
        + destruct aS; simpl; auto using Next_fault, NextRange_fault.
          all: now rewrite ?Next_fault, ?NextRange_fault.
        + destruct aS; simpl in *; auto.
          * destruct (fst (Next (source m1))) eqn:T; auto.
            rewrite (Next_false_end _ T) in ES. simpl in ES. congruence.
          * destruct (fst (NextRange (source m1))) eqn:T; auto.
            rewrite (NextRange_false_end _ T) in ES. simpl in ES. congruence.
      - destruct p as [r vs]. split; reflexivity.
      - intros _ m2 [[F H] _]. cbv beta.
        eapply post_bind with (P1 := fun _ _ => False);
          [|intros _ m3 []].
        rewrite H.
        eapply post_weaken; [apply handleAll_shape | | auto]; cbv beta.
        intros _ m3 (_ & N & _). simpl in N. congruence. }
    unfold Merge. fold m.
    destruct (merge m) as [[] m'|e m'|]; simpl in P; try contradiction; eauto.
  - set (m := {| ctx := c; writer := w; base := b;
                 source := o; dest := NewIterator (p :: l) (Some f);
                 haveSource := false; haveDest := false |}).
    set (I := fun m' => fault (dest m') = Some f /\ haveDest m' = true).
    assert (P : post (merge m) (fun _ _ => False) (fun _ _ => True)).
    { rewrite merge_unfold.
      eapply post_bind;
        [ apply (merge_loop_rule I (fun _ => True)); [| auto | | lia] | ].
      - intros m1 m2 [F H] _ _ (c' & w' & b' & aS & aD & -> & _) _ ED.
        simpl in *. rewrite H in *. split.
        + destruct aD; simpl; auto using Next_fault, NextRange_fault.
          all: now rewrite ?Next_fault, ?NextRange_fault.
        + destruct aD; simpl in *; auto.
          * destruct (fst (Next (dest m1))) eqn:T; auto.
            rewrite (Next_false_end _ T) in ED. simpl in ED. congruence.
          * destruct (fst (NextRange (dest m1))) eqn:T; auto.
            rewrite (NextRange_false_end _ T) in ED. simpl in ED. congruence.
      - destruct p as [r vs]. split; reflexivity.
      - intros _ m2 [[F H] HH]. cbv beta. rewrite H in HH.
        rewrite andb_true_r in HH.
        eapply post_bind with
          (P1 := fun _ m3 => fault (dest m3) = Some f /\ haveDest m3 = true).
        + rewrite HH. simpl. auto.
        + intros _ m3 [F3 H3]. cbv beta. rewrite H3.
          eapply post_weaken; [apply handleAll_shape | | auto]; cbv beta.
          intros _ m4 (_ & N & _). simpl in N. congruence. }
    unfold Merge. fold m.
    destruct (merge m) as [[] m'|e m'|]; simpl in P; try contradiction; eauto.
Qed.

(* ================================================================== *)
(** * One side against an empty or an equal base *)
(* ================================================================== *)

Lemma drain_source_new l : forall r vs log d hs hd fuel,
  List.length l <= fuel ->
  handleAll_loop fuel Source
    (inTail (logged log) atEnd (atHeader r vs l) d hs hd)
  = Ok tt (inTail (logged (wholeRanges l ++ WRange r :: log))
                  atEnd atEnd d hs hd).
Proof.
  induction l as [|[r2 vs2] l IH]; intros r vs log d hs hd fuel L;
    rewrite handleAll_loop_eq.
  - destruct fuel; reflexivity.
  - destruct fuel as [|n]; [simpl in L; lia|].
    unfold bind at 1, checkDone. simpl.
    unfold bind at 1. simpl.
    change (handleAll_loop n Source
              (inTail (logged (WRange r :: log)) atEnd (atHeader r2 vs2 l)
                      d hs hd)
            = Ok tt (inTail (logged (wholeRanges ((r2, vs2) :: l)
                                     ++ WRange r :: log))
                            atEnd atEnd d hs hd)).
    rewrite IH by (simpl in L; lia).
    unfold wholeRanges. simpl. now rewrite <- app_assoc.
Qed.

Lemma drain_dest_new l : forall r vs log s hs hd fuel,
  List.length l <= fuel ->
  handleAll_loop fuel Dest
    (inTail (logged log) atEnd s (atHeader r vs l) hs hd)
  = Ok tt (inTail (logged (wholeRanges l ++ WRange r :: log))
                  atEnd s atEnd hs hd).
Proof.
  induction l as [|[r2 vs2] l IH]; intros r vs log s hs hd fuel L;
    rewrite handleAll_loop_eq.
  - destruct fuel; reflexivity.
  - destruct fuel as [|n]; [simpl in L; lia|].
    unfold bind at 1, checkDone. simpl.
    unfold bind at 1. simpl.
    change (handleAll_loop n Dest
              (inTail (logged (WRange r :: log)) atEnd s (atHeader r2 vs2 l)
                      hs hd)
            = Ok tt (inTail (logged (wholeRanges ((r2, vs2) :: l)
                                     ++ WRange r :: log))
                            atEnd s atEnd hs hd)).
    rewrite IH by (simpl in L; lia).
    unfold wholeRanges. simpl. now rewrite <- app_assoc.
Qed.

(** X9. Over an empty base, with the other side empty, the merge copies the
    side that has ranges whole: the writer receives exactly its ranges, in
    order, each by one [WriteRange], and no record on its own (no failure of
    the collaborators, no cancellation). *)
Theorem merge_into_nothing_copies_ranges :
  forall X : list (Range * list ValueRecord),
    (exists m',
        Merge background newWriter (NewIterator [] None) (NewIterator X None)
              (NewIterator [] None) = Ok tt m'
        /\ output (writer m') = map (fun p => WRange (fst p)) X)
    /\ (exists m',
           Merge background newWriter (NewIterator [] None) (NewIterator [] None)
                 (NewIterator X None) = Ok tt m'
           /\ output (writer m') = map (fun p => WRange (fst p)) X).
Proof.
  intros [|[r vs] l].
  - split; eexists; split; reflexivity.
  - split.
    + unfold Merge. rewrite merge_unfold.
      change (primed _)
        with (inTail (logged []) atEnd (atHeader r vs l) atEnd true false).
      unfold bind at 1. rewrite merge_loop_done by reflexivity.
      cbv beta iota. unfold bind at 1.
      change (haveSource (inTail (logged []) atEnd (atHeader r vs l) atEnd
                                 true false)) with true.
      cbv iota. unfold handleAll.
      rewrite drain_source_new
        by (apply (ahead_ge_later (atHeader r vs l))).
      eexists. split; [reflexivity|].
      unfold output, wholeRanges. simpl.
      rewrite rev_app_distr, rev_involutive. reflexivity.
    + unfold Merge. rewrite merge_unfold.
      change (primed _)
        with (inTail (logged []) atEnd atEnd (atHeader r vs l) false true).
      unfold bind at 1. rewrite merge_loop_done by reflexivity.
      cbv beta iota. unfold bind at 1.
      change (haveSource (inTail (logged []) atEnd atEnd (atHeader r vs l)
                                 false true)) with false.
      cbv iota.
      change (haveDest (inTail (logged []) atEnd atEnd (atHeader r vs l)
                               false true)) with true.
      cbv iota. unfold handleAll.
      rewrite drain_dest_new
        by (apply (ahead_ge_later (atHeader r vs l))).
      eexists. split; [reflexivity|].
      unfold output, wholeRanges. simpl.
      rewrite rev_app_distr, rev_involutive. reflexivity.
Qed.

Lemma lt_is_ge a b : bytes.lt a b -> is_ge (bytes.Compare a b) = false.
Proof. unfold bytes.lt. now intros ->. Qed.

Lemma lookup_aligns r vs l b w src dst hs hd :
  bytes.le (MinKey r) (MaxKey r) ->
  alignedOrBehind b r vs l ->
  moveBaseToGERange (MinKey r) (inTail w b src dst hs hd)
  = Ok (Some r) (inTail w (atHeader r vs l) src dst hs hd).
Proof.
  intros LE [->|(r0 & vs0 & -> & LT)]; unfold moveBaseToGERange.
  - rewrite moveBaseToGERange_loop_eq.
    unfold bind, baseValue; simpl. now rewrite (le_is_ge _ _ LE).
  - simpl List.length. rewrite moveBaseToGERange_loop_eq.
    unfold bind, baseValue, baseNextRange; simpl.
    rewrite (lt_is_ge _ _ LT). simpl.
    rewrite moveBaseToGERange_loop_eq.
    unfold bind, baseValue; simpl. now rewrite (le_is_ge _ _ LE).
Qed.

#[local] Arguments moveBaseToGERange : simpl never.

Lemma set_ctx_inTail w b s d hs hd :
  set_ctx None (inTail w b s d hs hd) = inTail w b s d hs hd.
Proof. reflexivity. Qed.

Lemma drain_source_same l : forall r vs b w d hs hd fuel,
  ranges_ok ((r, vs) :: l) ->
  alignedOrBehind b r vs l ->
  List.length l <= fuel ->
  exists b',
    handleAll_loop fuel Source (inTail w b (atHeader r vs l) d hs hd)
    = Ok tt (inTail w b' atEnd d hs hd).
Proof.
  induction l as [|[r2 vs2] l IH]; intros r vs b w d hs hd fuel R A L;
    rewrite handleAll_loop_eq;
    unfold bind, checkDone, iterValue, wrap; simpl;
    rewrite set_ctx_inTail;
    rewrite (lookup_aligns r vs _ b w _ d hs hd) by (try apply R; exact A);
    simpl; rewrite String.eqb_refl; simpl.
  - eexists. reflexivity.
  - destruct fuel as [|n]; [simpl in L; lia|].
    apply (IH r2 vs2 (atHeader r vs ((r2, vs2) :: l)) w d hs hd n).
    + apply R.
    + right. exists r, vs. split; [reflexivity|]. apply R.
    + simpl in L. lia.
Qed.

Lemma drain_dest_same l : forall r vs b w s hs hd fuel,
  ranges_ok ((r, vs) :: l) ->
  alignedOrBehind b r vs l ->
  List.length l <= fuel ->
  exists b',
    handleAll_loop fuel Dest (inTail w b s (atHeader r vs l) hs hd)
    = Ok tt (inTail w b' s atEnd hs hd).
Proof.
  induction l as [|[r2 vs2] l IH]; intros r vs b w s hs hd fuel R A L;
    rewrite handleAll_loop_eq;
    unfold bind, checkDone, iterValue, wrap; simpl;
    rewrite set_ctx_inTail;
    rewrite (lookup_aligns r vs _ b w s _ hs hd) by (try apply R; exact A);
    simpl; rewrite String.eqb_refl; simpl.
  - eexists. reflexivity.
  - destruct fuel as [|n]; [simpl in L; lia|].
    apply (IH r2 vs2 (atHeader r vs ((r2, vs2) :: l)) w s hs hd n).
    + apply R.
    + right. exists r, vs. split; [reflexivity|]. apply R.
    + simpl in L. lia.
Qed.

(** X10. A side that equals the base, merged with an empty other side, is a
    tree the other side deleted: for a well-formed tree X, the merges of
    (base X, source X, dest empty) and of (base X, source empty, dest X)
    return nil and write nothing, whatever the writer. *)
Theorem merge_with_emptied_side_writes_nothing :
  forall (X : list (Range * list ValueRecord)) (w : MetaRangeWriter),
    ranges_ok X ->
    (exists m',
        Merge background w (NewIterator X None) (NewIterator X None)
              (NewIterator [] None) = Ok tt m'
        /\ writer m' = w)
    /\ (exists m',
           Merge background w (NewIterator X None) (NewIterator [] None)
                 (NewIterator X None) = Ok tt m'
           /\ writer m' = w).
Proof.
  intros [|[r vs] l] w R.
  - split; eexists; split; reflexivity.
  - split.
    + unfold Merge. rewrite merge_unfold.
      change (primed _)
        with (inTail w (atHeader r vs l) (atHeader r vs l) atEnd true false).
      unfold bind at 1. rewrite merge_loop_done by reflexivity.
      cbv beta iota. unfold bind at 1.
      change (haveSource (inTail w (atHeader r vs l) (atHeader r vs l) atEnd
                                 true false)) with true.
      cbv iota. unfold handleAll.
      destruct (drain_source_same l r vs (atHeader r vs l) w atEnd true false
                  (ahead (atHeader r vs l)) R (or_introl eq_refl)
                  (ahead_ge_later (atHeader r vs l))) as [b' E].
      simpl iter. rewrite E. eexists. split; reflexivity.
    + unfold Merge. rewrite merge_unfold.
      change (primed _)
        with (inTail w (atHeader r vs l) atEnd (atHeader r vs l) false true).
      unfold bind at 1. rewrite merge_loop_done by reflexivity.
      cbv beta iota. unfold bind at 1.
      change (haveSource (inTail w (atHeader r vs l) atEnd (atHeader r vs l)
                                 false true)) with false.
      cbv iota.
      change (haveDest (inTail w (atHeader r vs l) atEnd (atHeader r vs l)
                               false true)) with true.
      cbv iota. unfold handleAll.
      destruct (drain_dest_same l r vs (atHeader r vs l) w atEnd false true
                  (ahead (atHeader r vs l)) R (or_introl eq_refl)
                  (ahead_ge_later (atHeader r vs l))) as [b' E].
      simpl iter. rewrite E. eexists. split; reflexivity.
Qed.

Lemma merge_with_emptied_side_writes_nothing_witness :
  (exists m',
      Merge background newWriter
            (NewIterator [(rng "R" "a" "b", [rec "a" "1"; rec "b" "2"])] None)
            (NewIterator [(rng "R" "a" "b", [rec "a" "1"; rec "b" "2"])] None)
            (NewIterator [] None) = Ok tt m'
      /\ writer m' = newWriter)
  /\ (exists m',
         Merge background newWriter
               (NewIterator [(rng "R" "a" "b", [rec "a" "1"; rec "b" "2"])] None)
               (NewIterator [] None)
               (NewIterator [(rng "R" "a" "b", [rec "a" "1"; rec "b" "2"])] None)
         = Ok tt m'
         /\ writer m' = newWriter).
Proof.
  apply (merge_with_emptied_side_writes_nothing
           [(rng "R" "a" "b", [rec "a" "1"; rec "b" "2"])] newWriter).
  simpl. unfold bytes.le, bytes.lt. simpl. repeat split; discriminate.
Defined.

(* ================================================================== *)
(** * Single passes, for any merger *)
(* ================================================================== *)

(** X11. Every pass of the main loop that returns has moved source or dest
    (by [Next] or [NextRange]) and has written at most one range or record.  A
    pass that fails has either left writer, source and dest untouched (a
    conflict, a cancellation, a failed lookup or write), or it has made such a
    step and then found the I/O error of an iterator. *)
Theorem pass_moves_a_side_and_writes_at_most_once :
  forall m : merger,
    match iteration m with
    | Ok _ m' => stepped m tt m'
    | Error e m' =>
        quiet m m' \/ (stepped m tt m' /\ exists s, e = IOError s)
    | OutOfFuel => False
    end.
Proof.
  intros m. pose proof (iteration_shape m) as H.
  destruct (iteration m); simpl in H; intuition.
Qed.




(* ================================================================== *)
(** * The errors of the merge *)
(* ================================================================== *)

Lemma moveBaseToGEKey_fwd key m :
  post (moveBaseToGEKey key m) (moved_base m) (base_io_failed m).
Proof.
  eapply post_weaken; [apply moveBaseToGEKey_lands | |]; cbv beta.
  - intros v m' [[F _] _]. exact F.
  - intros e m' [[F _] E]. split; assumption.
Qed.

Lemma moveBaseToGERange_fwd key m :
  post (moveBaseToGERange key m) (moved_base m) (base_io_failed m).
Proof.
  eapply post_weaken; [apply moveBaseToGERange_lands | |]; cbv beta.
  - intros v m' [[F _] _]. exact F.
  - intros e m' [[F _] E]. split; assumption.
Qed.

Lemma post_bind_lookup {A B} (c : M A) (k : A -> M B) m P Q :
  post (c m) (moved_base m) (base_io_failed m) ->
  (forall b s, Q (IOError s) (set_base b m)) ->
  (forall a b, post (k a (set_base b m)) P Q) ->
  post (bind c k m) P Q.
Proof.
  intros H HQ HK. eapply post_bind.
  - eapply post_weaken; [exact H | intros a m' E; exact E |].
    intros e m' [[b ->] [s ->]]. apply HQ.
  - intros a m1 [b ->]. apply HK.
Qed.

Lemma post_bind_lookup_wrap {A B} msg (c : M A) (k : A -> M B) m P Q :
  post (c m) (moved_base m) (base_io_failed m) ->
  (forall b s, Q (Errorf msg (IOError s)) (set_base b m)) ->
  (forall a b, post (k a (set_base b m)) P Q) ->
  post (bind (wrap msg c) k m) P Q.
Proof.
  intros H HQ HK. eapply post_bind.
  - apply post_wrap.
    eapply post_weaken; [exact H | intros a m' E; exact E |].
    intros e m' [[b ->] [s ->]]. apply HQ.
  - intros a m1 [b ->]. apply HK.
Qed.

Lemma bind_assoc {A B C} (c : M A) (g : A -> M B) (k : B -> M C) m :
  bind (bind c g) k m = bind c (fun x => bind (g x) k) m.
Proof. unfold bind. now destruct (c m). Qed.

Lemma writes_record v m : writes (WRecord v) (writeRecord v) m.
Proof.
  unfold writes, writeRecord, WriteRecord, Write.
  destruct (failAfter (writer m)) as [[|n]|]; simpl.
  - right. eexists. rewrite set_writer_same. split; [reflexivity | exact I].
  - left. eexists. split; reflexivity.
  - left. eexists. split; reflexivity.
Qed.

Lemma writes_range r m : writes (WRange r) (writeRange r) m.
Proof.
  unfold writes, writeRange, WriteRange, Write.
  destruct (failAfter (writer m)) as [[|n]|]; simpl.
  - right. eexists. rewrite set_writer_same. split; [reflexivity | exact I].
  - left. eexists. split; reflexivity.
  - left. eexists. split; reflexivity.
Qed.

Lemma writes_wrap msg k wr m : writes k wr m -> writes k (wrap msg wr) m.
Proof.
  unfold writes, wrap. intros [(w & -> & W)|(e & -> & Be)].
  - left. eauto.
  - right. eexists. split; [reflexivity | exact Be].
Qed.

Lemma post_bind_writes {B} k (wr : M unit) (k' : unit -> M B) m P Q :
  writes k wr m ->
  (forall e, io_rooted e -> Q e m) ->
  (forall w, written w = k :: written (writer m) ->
             post (k' tt (set_writer w m)) P Q) ->
  post (bind wr k' m) P Q.
Proof.
  intros [(w & E & W)|(e & E & Be)] HQ HK; unfold bind; rewrite E.
  - now apply HK.
  - now apply HQ.
Qed.

Ltac undone_b :=
  unfold undone_reported;
  split; [ first [apply quiet_base | repeat split; reflexivity]
        | unfold reported; simpl; auto ].

Ltac lookup_b :=
  first
    [ eapply post_bind_lookup_wrap;
      [ first [apply moveBaseToGEKey_fwd | apply moveBaseToGERange_fwd]
      | intros; undone_b
      | intros ? ?; cbv beta ]
    | eapply post_bind_lookup;
      [ first [apply moveBaseToGEKey_fwd | apply moveBaseToGERange_fwd]
      | intros; undone_b
      | intros ? ?; cbv beta ] ].

Ltac write_b :=
  eapply post_bind_writes;
  [ first [ apply writes_record | apply writes_range
          | apply writes_wrap; first [apply writes_record | apply writes_range] ]
  | intros; undone_b
  | intros ? ?; cbv beta ].

Ltac leaf_b := unfold bind, throw; simpl; undone_b.

Lemma handleBothKeys_safe sv dv m :
  post (handleBothKeys sv dv m) (stepped m) (undone_reported m).
Proof.
  unfold handleBothKeys.
  destruct (bytes.Compare (Key sv) (Key dv)); lookup_b.
  - destruct (negb _); [destruct a as [bv|]|].
    + destruct (bytes.Equal (Identity sv) (Identity bv));
        [|destruct (bytes.Equal (Identity dv) (Identity bv))].
      * write_b. shaped m.
      * write_b. shaped m.
      * leaf_b.
    + leaf_b.
    + write_b. shaped m.
  - destruct (nonnil_and _ _); [|destruct (nonnil_and _ _)].
    + shaped m.
    + leaf_b.
    + write_b. shaped m.
  - destruct (nonnil_and _ _); [|destruct (nonnil_and _ _)].
    + shaped m.
    + leaf_b.
    + write_b. shaped m.
Qed.

Lemma handleDestRangeSourceKey_safe dr sv m :
  post (handleDestRangeSourceKey dr sv m) (stepped m) (undone_reported m).
Proof.
  unfold handleDestRangeSourceKey.
  destruct (is_gt _).
  - lookup_b. destruct (nonnil_and _ _); [|destruct (nonnil_and _ _)].
    + shaped m.
    + leaf_b.
    + write_b. shaped m.
  - destruct (is_lt _).
    + rewrite bind_assoc. lookup_b. unfold bind at 1, ret.
      destruct (nonnil_and _ _); shaped m.
    + unfold bind at 1, ret. rewrite <- (set_base_same m) at 1. shaped m.
Qed.

Lemma handleSourceRangeDestKey_safe sr dv m :
  post (handleSourceRangeDestKey sr dv m) (stepped m) (undone_reported m).
Proof.
  unfold handleSourceRangeDestKey.
  destruct (is_gt _).
  - lookup_b. destruct (nonnil_and _ _); [|destruct (nonnil_and _ _)].
    + shaped m.
    + leaf_b.
    + write_b. shaped m.
  - destruct (is_lt _).
    + rewrite bind_assoc. lookup_b. unfold bind at 1, ret.
      destruct (nonnil_and _ _); shaped m.
    + unfold bind at 1, ret. rewrite <- (set_base_same m) at 1. shaped m.
Qed.

Lemma handleBothRanges_safe sr dr m :
  post (handleBothRanges sr dr m) (stepped m) (undone_reported m).
Proof.
  unfold handleBothRanges.
  destruct (String.eqb _ _).
  { rewrite <- (set_base_same m) at 1. write_b. shaped m. }
  destruct (is_lt _).
  { lookup_b. destruct (nonnil_and _ _); [|destruct (nil_or _ _)].
    - shaped m.
    - write_b. shaped m.
    - shaped m. }
  destruct (is_lt _).
  { lookup_b. destruct (nonnil_and _ _); [|destruct (nil_or _ _)].
    - write_b. shaped m.
    - shaped m.
    - shaped m. }
  destruct (_ && _).
  - lookup_b. destruct (nonnil_and _ _); [destruct (nonnil_and _ _)|].
    + write_b. shaped m.
    + write_b. shaped m.
    + shaped m.
  - rewrite <- (set_base_same m) at 1. shaped m.
Qed.

Lemma dispatch_safe m :
  on_position m -> haveSource m = true -> haveDest m = true ->
  post (dispatch m) (stepped m) (undone_reported m).
Proof.
  intros [PS PD] HS HD. specialize (PS HS). specialize (PD HD).
  unfold dispatch, bind, iterValue, iter, Value.
  destruct (cur (source m)) as [[sr so]|]; [|congruence].
  destruct (cur (dest m)) as [[dr do]|]; [|congruence].
  destruct so as [sv|], do as [dv|]; simpl;
    auto using handleBothKeys_safe, handleDestRangeSourceKey_safe,
      handleSourceRangeDestKey_safe, handleBothRanges_safe.
Qed.

Lemma iteration_safe m :
  on_position m -> haveSource m = true -> haveDest m = true ->
  post (iteration m)
       (fun _ m' => stepped m tt m'
                    /\ err (source m') = None /\ err (dest m') = None)
       (fun e _ => reported e).
Proof.
  intros P HS HD.
  unfold iteration, bind at 1, checkDone.
  destruct (fst (Done (ctx m))); [simpl; unfold reported; auto|].
  unfold bind at 1.
  pose proof (dispatch_safe (set_ctx (snd (Done (ctx m))) m) P HS HD) as D.
  destruct (dispatch _) as [[] m1|e m1|]; simpl in D; [| |contradiction].
  - unfold bind, iterErr, baseErr, iter, Err, retErr, throw, ret.
    destruct (err (source m1)) eqn:ES; simpl; [unfold reported; simpl; auto|].
    destruct (err (dest m1)) eqn:ED; simpl; [unfold reported; simpl; auto|].
    destruct (err (base m1)); simpl; [unfold reported; simpl; auto|].
    auto.
  - apply D.
Qed.

Lemma moved_on_position a h it :
  (h = true -> cur it <> None) ->
  fst (moved a h it) = true -> cur (snd (moved a h it)) <> None.
Proof.
  destruct a; simpl; auto; intros _ T.
  - pose proof (Next_cur it) as N. rewrite T in N. destruct N as [p ->].
    discriminate.
  - pose proof (NextRange_cur it) as N. rewrite T in N. destruct N as [r ->].
    discriminate.
Qed.

Lemma stepped_on_position m m' :
  on_position m -> stepped m tt m' -> on_position m'.
Proof.
  intros [PS PD] (c & w & b & aS & aD & -> & _). split; simpl.
  - now apply moved_on_position.
  - now apply moved_on_position.
Qed.

Lemma merge_loop_safe fuel : forall m,
  on_position m -> ahead (source m) + ahead (dest m) < fuel ->
  post (merge_loop fuel m) (fun _ m' => on_position m') (fun e _ => reported e).
Proof.
  induction fuel as [|n IH]; intros m P L; [lia|].
  destruct (haveSource m && haveDest m) eqn:H.
  - simpl. rewrite H. apply andb_true_iff in H as [HS HD].
    eapply post_bind; [now apply iteration_safe|]; cbv beta.
    intros _ m1 (S1 & _ & _).
    pose proof (stepped_on_position m m1 P S1) as P1.
    destruct (stepped_progress m m1 HS HD S1) as [Q|Q].
    + rewrite merge_loop_done by assumption. exact P1.
    + apply IH; [exact P1 | lia].
  - rewrite merge_loop_done by assumption. exact P.
Qed.

(** The end of a step of the tail phase: the side moves on, and the loop goes
    on from a position with less ahead, or ends with the side's error. *)
Lemma tail_advance_safe s (adv : Iterator -> bool * Iterator)
      (cont : M unit) m :
  (if fst (adv (iter s m))
   then ahead (snd (adv (iter s m))) < ahead (iter s m)
        /\ cur (snd (adv (iter s m))) <> None
   else True) ->
  (forall m2, cur (iter s m2) <> None ->
              ahead (iter s m2) < ahead (iter s m) ->
              post (cont m2) (fun _ _ => True) (fun e _ => reported e)) ->
  post ((if negb (fst (adv (iter s m)))
         then (e <- iterErr s ;; retErr tt e)
         else cont) (set_iter s (snd (adv (iter s m))) m))
       (fun _ _ => True) (fun e _ => reported e).
Proof.
  intros A K. destruct (fst (adv (iter s m))); cbn [negb].
  - apply K; rewrite iter_set_iter; apply A.
  - unfold bind, iterErr, retErr, Err. rewrite iter_set_iter.
    destruct (err _); simpl; [unfold reported; simpl; auto | exact I].
Qed.

Lemma Next_advances it :
  if fst (Next it)
  then ahead (snd (Next it)) < ahead it /\ cur (snd (Next it)) <> None
  else True.
Proof.
  pose proof (Next_ahead it) as A. pose proof (Next_cur it) as C.
  destruct (fst (Next it)); [|exact I].
  split; [exact A|]. destruct C as [p ->]. discriminate.
Qed.

Lemma NextRange_advances it :
  if fst (NextRange it)
  then ahead (snd (NextRange it)) < ahead it /\ cur (snd (NextRange it)) <> None
  else True.
Proof.
  pose proof (NextRange_ahead it) as A. pose proof (NextRange_cur it) as C.
  destruct (fst (NextRange it)); [|exact I].
  split; [exact A|]. destruct C as [p ->]. discriminate.
Qed.

Lemma handleAll_loop_safe fuel : forall s m,
  cur (iter s m) <> None -> ahead (iter s m) <= fuel ->
  post (handleAll_loop fuel s m) (fun _ _ => True) (fun e _ => reported e).
Proof.
  induction fuel as [|n IH]; intros s m P L; rewrite handleAll_loop_eq.
  all: eapply post_bind with (P1 := fun _ m' => exists c, m' = set_ctx c m);
    [ unfold checkDone; destruct (fst (Done (ctx m))); simpl;
      unfold reported; eauto | ].
  all: intros _ m0 [c ->].
  all: unfold bind at 1, iterValue; cbv zeta.
  all: replace (Value (iter s (set_ctx c m))) with (Value (iter s m))
    by (destruct s; reflexivity).
  all: unfold Value; destruct (cur (iter s m)) as [[r [v|]]|] eqn:C;
    cbn [fst snd deref]; [| |congruence].
  all: try (unfold bind at 1, ret).
  all: eapply post_bind_lookup_wrap;
    [ first [apply moveBaseToGEKey_fwd | apply moveBaseToGERange_fwd]
    | intros; unfold reported; simpl; auto
    | intros a b; cbv beta ].
  all: match goal with
       | |- context [nil_or ?x ?f] => destruct (nil_or x f)
       end.
  all: try (eapply post_bind_writes;
            [ first [apply writes_record | apply writes_range]
            | intros e Be; unfold reported; auto
            | intros w W; cbv beta ]).
  all: try (unfold bind at 1, ret).
  all: unfold bind at 1, iterNext, iterNextRange.
  all: match goal with
       | |- context [set_iter ?s0 (snd (?adv (iter ?s0 ?M))) ?M] =>
           apply (tail_advance_safe s0 adv _ M)
       end.
  all: try apply Next_advances; try apply NextRange_advances.
  all: intros m2 P2 A2.
  all: match type of A2 with
       | _ < ahead (iter ?s0 ?M) =>
           replace (iter s0 M) with (iter s0 m) in A2
             by (destruct s0; reflexivity)
       end.
  all: try lia.
  all: apply IH; [exact P2 | lia].
Qed.

Lemma post_and {A} (r : result A) P P' Q Q' :
  post r P Q -> post r P' Q' ->
  post r (fun a m => P a m /\ P' a m) (fun e m => Q e m /\ Q' e m).
Proof. destruct r; simpl; auto. Qed.

Lemma handleAll_safe s m :
  cur (iter s m) <> None ->
  post (handleAll s m) (tail_done s m) (fun e _ => reported e).
Proof.
  intros P.
  eapply post_weaken;
    [ apply post_and; [apply handleAll_shape | apply handleAll_loop_safe] | |];
    cbv beta; intuition auto.
Qed.

Lemma primed_on_position m : on_position (primed m).
Proof.
  split; simpl; intros T.
  - pose proof (Next_cur (source m)) as N. rewrite T in N.
    destruct N as [p ->]. discriminate.
  - pose proof (Next_cur (dest m)) as N. rewrite T in N.
    destruct N as [p ->]. discriminate.
Qed.


Lemma merge_reported m :
  post (merge m) (fun _ _ => True) (fun e _ => reported e).
Proof.
  rewrite merge_unfold.
  eapply post_bind;
    [ apply merge_loop_safe; [apply primed_on_position | lia] | ].
  cbv beta. intros _ m2 [PS PD].
  eapply post_bind
    with (P1 := fun _ m' => haveDest m' = true -> cur (dest m') <> None).
  { destruct (haveSource m2) eqn:HS; [|exact PD].
    eapply post_weaken; [apply handleAll_safe; now apply PS | |];
      cbv beta; [|auto].
    intros _ m' (_ & _ & D & _ & HD & _). simpl in D.
    rewrite D, HD. exact PD. }
  cbv beta. intros _ m3 PD3.
  destruct (haveDest m3) eqn:HD; [|exact I].
  eapply post_weaken; [apply handleAll_safe; now apply PD3 | |];
    cbv beta; auto.
Qed.


(** X15. The conflict and the cancellation reach the caller as they are:
    when the merge fails, for any input, the error is [ErrConflictFound]
    itself, or the error of the context itself, neither of them wrapped in a
    message, or else an I/O error of an iterator or of the writer, with or
    without messages around it.  A caller may compare the error of a merge
    with [ErrConflictFound] by equality. *)
Theorem merge_returns_conflict_and_cancellation_unwrapped :
  forall m : merger,
    match merge m with
    | Error e _ => e = ErrConflictFound \/ e = Canceled \/ io_rooted e
    | _ => True
    end.
Proof.
  intros m. pose proof (merge_reported m) as R.
  destruct (merge m); [exact I | exact R | exact I].
Qed.

(* ================================================================== *)
(** * The prefix file of the import command *)
(* ================================================================== *)

Lemma scan_loop_filters fuel : forall sc acc,
  List.length (importcmd.unread sc) <= fuel ->
  exists sc',
    importcmd.scan_loop fuel sc acc
    = Some (sc', acc ++ importcmd.nonempty_lines (importcmd.unread sc))
    /\ importcmd.readErr sc' = importcmd.readErr sc.
Proof.
  induction fuel as [|n IH]; intros [ls t e] acc L; simpl in L.
  - destruct ls; [|simpl in L; lia]. exists {| importcmd.unread := [];
      importcmd.text := t; importcmd.readErr := e |}.
    simpl. now rewrite app_nil_r.
  - destruct ls as [|l ls].
    + eexists. simpl. rewrite app_nil_r. split; reflexivity.
    + simpl in L.
      destruct (IH {| importcmd.unread := ls; importcmd.text := l;
                      importcmd.readErr := e |}
                   (if negb (String.eqb l "") then acc ++ [l] else acc))
        as (sc' & E & R); [simpl; lia|].
      change (importcmd.scan_loop (S n)
                {| importcmd.unread := l :: ls; importcmd.text := t;
                   importcmd.readErr := e |} acc)
        with (importcmd.scan_loop n
                {| importcmd.unread := ls; importcmd.text := l;
                   importcmd.readErr := e |}
                (if negb (String.eqb l "") then acc ++ [l] else acc)).
      exists sc'. split; [|exact R].
      rewrite E. unfold importcmd.nonempty_lines. simpl.
      destruct (String.eqb l ""); simpl; [reflexivity|].
      now rewrite <- app_assoc.
Qed.

(** X14. getPrefixes returns the lines of the prefix file that are not
    empty, in the order of the file, and prints how many they are.  With an
    empty file name it opens nothing and returns no prefixes and no error.
    If the file cannot be opened, or reading it fails at any line, it returns
    no prefixes at all, with that error. *)
Theorem getPrefixes_returns_the_nonempty_lines :
  forall (open : importcmd.Files) (prefixFile : string),
    importcmd.getPrefixes open prefixFile =
    Some (if String.eqb prefixFile "" then (([], None), [])
          else match open prefixFile with
               | inr err =>
                   (([], Some err), [importcmd.FailedToReadPrefixFilter err])
               | inl sc =>
                   match importcmd.readErr sc with
                   | Some err =>
                       (([], Some err),
                        [importcmd.FailedToReadPrefixFilter err])
                   | None =>
                       let ps := importcmd.nonempty_lines (importcmd.unread sc)
                       in ((ps, None),
                           [importcmd.FilteringAccordingTo (List.length ps)])
                   end
               end).
Proof.
  intros open f. unfold importcmd.getPrefixes.
  destruct (String.eqb f ""); cbn [negb]; [reflexivity|].
  destruct (open f) as [sc|err]; [|reflexivity].
  destruct (scan_loop_filters (List.length (importcmd.unread sc)) sc [])
    as (sc' & E & R); [lia|].
  rewrite E. unfold importcmd.Err. rewrite R. simpl.
  destruct (importcmd.readErr sc); reflexivity.
Qed.
